(** * projectx: the SignalR subscription manager and the OHLCV bar aggregator

    A shallow embedding of the two stateful components of the Go package
    [projectx]: [MarketDataManager] (bar aggregation from quote and trade
    ticks) and [SignalRClient] (connection state and the subscription set).

    Conventions.
    - [float64] is Rocq's primitive binary64 float; Go's [>] and [<] are the
      IEEE comparisons [PrimFloat.ltb], which are false on NaN.
    - [time.Time] is an integer number of nanoseconds since Go's zero time,
      [time.Duration] an [int64] number of nanoseconds.
    - [int] is 64 bits wide; arithmetic on it wraps.
    - [time.Now()] is an input of the handlers: each call receives the clock
      reading it would have taken.
    - The callback, the logger and the SignalR transport are the outside
      world: calls to them are recorded, in order, in the result. *)

From Stdlib Require Import ZArith Lia Bool List Sorted Floats.
From stdpp Require Import base gmap strings list pretty.

Local Open Scope Z_scope.

(* ===================================================================== *)
(** * int *)
(* ===================================================================== *)

Module Int64.

Definition min_int64 : Z := - 2 ^ 63.
Definition max_int64 : Z := 2 ^ 63 - 1.

(** Two's complement wrap-around of a 64-bit [int]. *)
Definition wrap64 (z : Z) : Z := (z + 2 ^ 63) mod 2 ^ 64 - 2 ^ 63.

End Int64.

(* ===================================================================== *)
(** * float64 *)
(* ===================================================================== *)

Module Float64.

(** Go's [x > y] and [x < y] on float64. *)
Definition gt (x y : float) : bool := PrimFloat.ltb y x.
Definition lt (x y : float) : bool := PrimFloat.ltb x y.
Definition le (x y : float) : bool := PrimFloat.leb x y.

Definition is_nan (x : float) : bool := PrimFloat.is_nan x.

(** Neither NaN nor an infinity: what a JSON number decodes to. *)
Definition SFfinite (x : spec_float) : bool :=
  match x with
  | S754_zero _ | S754_finite _ _ _ => true
  | _ => false
  end.

Definition finite (x : float) : bool := SFfinite (Prim2SF x).

(** The quote mid-price [(bid + ask) / 2], in float64 arithmetic. *)
Definition mid (bid ask : float) : float :=
  PrimFloat.div (PrimFloat.add bid ask) 2%float.

(** The mathematical value of a finite float, rounded toward zero. *)
Definition trunc_SF (f : spec_float) : option Z :=
  match f with
  | S754_zero _ => Some 0
  | S754_finite s m e =>
      let a := Z.shiftl (Z.pos m) e in Some (if s then - a else a)
  | _ => None
  end.

(** The mathematical value of a finite float, rounded down. *)
Definition floor_SF (f : spec_float) : option Z :=
  match f with
  | S754_zero _ => Some 0
  | S754_finite s m e => Some (Z.shiftl (if s then Z.neg m else Z.pos m) e)
  | _ => None
  end.

(** Go's conversion [int(f)]: the fraction is discarded.  For NaN, the
    infinities and values outside int64 the language leaves the result to
    the implementation; amd64 produces the least int64. *)
Definition to_int (f : float) : Z :=
  match trunc_SF (Prim2SF f) with
  | Some z =>
      if (Int64.min_int64 <=? z) && (z <=? Int64.max_int64) then z
      else Int64.min_int64
  | None => Int64.min_int64
  end.

(** [floor f] as an integer, for finite [f] (0 otherwise). *)
Definition floor (f : float) : Z :=
  match floor_SF (Prim2SF f) with Some z => z | None => 0 end.

End Float64.

(* ===================================================================== *)
(** * time *)
(* ===================================================================== *)

Module time.

Definition Time := Z.
Definition Duration := Z.

Definition Nanosecond : Duration := 1.
Definition Second : Duration := 1000000000.
Definition Minute : Duration := 60 * Second.

Definition minDuration : Duration := - 2 ^ 63.
Definition maxDuration : Duration := 2 ^ 63 - 1.

(** [t.Sub(u)]: the difference, saturated to the range of [Duration].
    The aggregator subtracts a bar's start, which [Truncate] has stripped
    of its monotonic reading, so the difference is one of wall-clock
    times. *)
Definition Sub (t u : Time) : Duration :=
  Z.max minDuration (Z.min maxDuration (t - u)).

(** [t.Truncate(d)]: [t] rounded down to a multiple of [d] since the zero
    time; [t] itself when [d <= 0]. *)
Definition Truncate (t : Time) (d : Duration) : Time :=
  if d <=? 0 then t else t - t mod d.

End time.

(* ===================================================================== *)
(** * The data model shared by both components *)
(* ===================================================================== *)

(** A dynamically typed payload value ([interface{}]), as the decoders of
    the transport produce them. *)
Inductive any :=
  | VNil
  | VBool (b : bool)
  | VFloat64 (f : float)
  | VInt (z : Z)
  | VString (s : string).

(** [v, ok := x.(float64)] where [x] is the result of a map lookup: a
    missing key reads as the nil interface, for which the assertion fails
    and yields the zero value. *)
Definition assert_float64 (x : option any) : float * bool :=
  match x with
  | Some (VFloat64 f) => (f, true)
  | _ => (0%float, false)
  end.

Record HistoryBar := {
  Time  : time.Time;
  Open  : float;
  High  : float;
  Low   : float;
  Close : float;
  Vol   : Z
}.

(** What a handler does to the outside world, in program order. *)
Inductive effect :=
  | Callback (bar : HistoryBar)   (* m.callback( *m.currentBar ) *)
  | Log (line : string).          (* log.Printf(...) *)

(* ===================================================================== *)
(** * MarketDataManager: the bar aggregator *)
(* ===================================================================== *)

(** [callback] records whether the function value is non-nil; what it is
    called with is an [effect].  The mutex is held for the whole body of
    every handler, so a handler is one atomic step. *)
Record MarketDataManager := {
  currentBar    : option HistoryBar;
  lastTradeTime : time.Time;
  barPeriod     : time.Duration;
  callback      : bool;
  contractID    : string
}.

Definition with_currentBar (m : MarketDataManager) (b : option HistoryBar) :=
  {| currentBar := b; lastTradeTime := lastTradeTime m;
     barPeriod := barPeriod m; callback := callback m;
     contractID := contractID m |}.

Definition with_lastTradeTime (m : MarketDataManager) (t : time.Time) :=
  {| currentBar := currentBar m; lastTradeTime := t;
     barPeriod := barPeriod m; callback := callback m;
     contractID := contractID m |}.

Definition with_High (b : HistoryBar) (p : float) :=
  {| Time := Time b; Open := Open b; High := p; Low := Low b;
     Close := Close b; Vol := Vol b |}.

Definition with_Low (b : HistoryBar) (p : float) :=
  {| Time := Time b; Open := Open b; High := High b; Low := p;
     Close := Close b; Vol := Vol b |}.

Definition with_Close (b : HistoryBar) (p : float) :=
  {| Time := Time b; Open := Open b; High := High b; Low := Low b;
     Close := p; Vol := Vol b |}.

Definition with_Vol (b : HistoryBar) (v : Z) :=
  {| Time := Time b; Open := Open b; High := High b; Low := Low b;
     Close := Close b; Vol := v |}.

Definition NewMarketDataManager (contractID : string) (barPeriodMinutes : Z)
    (callback : bool) : MarketDataManager :=
  {| currentBar := None;
     lastTradeTime := 0;
     barPeriod := Int64.wrap64 (barPeriodMinutes * time.Minute);
     callback := callback;
     contractID := contractID |}.

Definition initializeNewBar (t : time.Time) (price : float)
    (m : MarketDataManager) : MarketDataManager :=
  let barStartTime := time.Truncate t (barPeriod m) in
  with_currentBar m
    (Some {| Time := barStartTime; Open := price; High := price;
             Low := price; Close := price; Vol := 0 |}).

Definition closeCurrentBar (m : MarketDataManager) : list effect :=
  match currentBar m with
  | Some b => if callback m then [Callback b] else []
  | None => []
  end.

(** The three assignments both handlers make to the bar's prices. *)
Definition update_prices (b : HistoryBar) (price : float) : HistoryBar :=
  let b := if Float64.gt price (High b) then with_High b price else b in
  let b := if Float64.lt price (Low b) then with_Low b price else b in
  with_Close b price.

(** "Check if it's time to close the bar", after the update. *)
Definition roll_over (now : time.Time) (price : float)
    (m : MarketDataManager) (b : HistoryBar) : MarketDataManager * list effect :=
  let m := with_currentBar m (Some b) in
  if barPeriod m <=? time.Sub now (Time b)
  then (initializeNewBar now price m, closeCurrentBar m)
  else (m, []).

Definition OnQuote (now : time.Time) (id : string) (data : gmap string any)
    (m : MarketDataManager) : MarketDataManager * list effect :=
  if decide (id <> contractID m) then (m, []) else
  let '(bid, ok1) := assert_float64 (data !! "bid"%string) in
  let '(ask, ok2) := assert_float64 (data !! "ask"%string) in
  if negb ok1 || negb ok2 then (m, [Log "Invalid quote data format"%string]) else
  match currentBar m with
  | None => (initializeNewBar now (Float64.mid bid ask) m, [])
  | Some b =>
      let price := Float64.mid bid ask in
      roll_over now price m (update_prices b price)
  end.

Definition OnTrade (now : time.Time) (id : string) (data : gmap string any)
    (m : MarketDataManager) : MarketDataManager * list effect :=
  if decide (id <> contractID m) then (m, []) else
  let '(price, ok1) := assert_float64 (data !! "price"%string) in
  let '(size, ok2) := assert_float64 (data !! "size"%string) in
  if negb ok1 || negb ok2 then (m, [Log "Invalid trade data format"%string]) else
  let m := with_lastTradeTime m now in
  match currentBar m with
  | None => (initializeNewBar now price m, [])
  | Some b =>
      let b := update_prices b price in
      let b := with_Vol b (Int64.wrap64 (Vol b + Float64.to_int size)) in
      roll_over now price m b
  end.

Definition OnDepth (id : string) (data : gmap string any)
    (m : MarketDataManager) : MarketDataManager * list effect :=
  (m, []).

(** One pushed message, with the clock reading its handler takes. *)
Inductive tick :=
  | GatewayQuote (now : time.Time) (id : string) (data : gmap string any)
  | GatewayTrade (now : time.Time) (id : string) (data : gmap string any)
  | GatewayDepth (id : string) (data : gmap string any).

Definition handle (m : MarketDataManager) (e : tick) : MarketDataManager * list effect :=
  match e with
  | GatewayQuote now id data => OnQuote now id data m
  | GatewayTrade now id data => OnTrade now id data m
  | GatewayDepth id data => OnDepth id data m
  end.

(** Messages are handled one at a time, in the order delivered. *)
Fixpoint run (m : MarketDataManager) (es : list tick) : MarketDataManager * list effect :=
  match es with
  | [] => (m, [])
  | e :: es =>
      let '(m1, out1) := handle m e in
      let '(m2, out2) := run m1 es in
      (m2, out1 ++ out2)
  end.

(** The payloads of a quote and of a trade. *)
Definition quote (bid ask : float) : gmap string any :=
  <["bid"%string := VFloat64 bid]> (<["ask"%string := VFloat64 ask]> ∅).

Definition trade (price size : float) : gmap string any :=
  <["price"%string := VFloat64 price]> (<["size"%string := VFloat64 size]> ∅).

(* ===================================================================== *)
(** * SignalRClient: the connection and subscription manager *)
(* ===================================================================== *)

Record SignalRClient := {
  subscriptions  : gmap string bool;
  isConnected    : bool;
  reconnectCount : Z
}.

Definition with_subscriptions (c : SignalRClient) (s : gmap string bool) :=
  {| subscriptions := s; isConnected := isConnected c;
     reconnectCount := reconnectCount c |}.

Definition with_isConnected (c : SignalRClient) (b : bool) :=
  {| subscriptions := subscriptions c; isConnected := b;
     reconnectCount := reconnectCount c |}.

Definition with_reconnectCount (c : SignalRClient) (n : Z) :=
  {| subscriptions := subscriptions c; isConnected := isConnected c;
     reconnectCount := n |}.

(** What the client does to the transport, the context and the logger. *)
Inductive action :=
  | Send (method contractID : string)   (* c.client.Send(method, contractID) *)
  | Printf (line : string)              (* log.Printf(...) *)
  | Cancel                              (* c.cancel() *)
  | ClientStart                         (* c.client.Start() *)
  | ClientStop.                         (* c.client.Stop() *)

(** The client together with everything it has done so far, oldest first. *)
Record world := {
  self  : SignalRClient;
  trace : list action
}.

(** The hub decides the error received from the channel that [Send]
    returns, [None] being the nil error; it may depend on everything the
    client did before. *)
Definition hub := list action -> string -> string -> option string.

(** Methods of the client: state passing over [world]. *)
Definition M (A : Type) : Type := world -> A * world.

#[global] Instance M_ret : MRet M := fun A a w => (a, w).
#[global] Instance M_bind : MBind M :=
  fun A B f m w => let '(a, w1) := m w in f a w1.

Definition get : M SignalRClient := fun w => (self w, w).

Definition modify (f : SignalRClient -> SignalRClient) : M unit :=
  fun w => (tt, {| self := f (self w); trace := trace w |}).

Definition act (a : action) : M unit :=
  fun w => (tt, {| self := self w; trace := trace w ++ [a] |}).

(** [for k := range keys { body k }]. *)
Fixpoint for_range (keys : list string) (body : string -> M unit) : M unit :=
  match keys with
  | [] => mret tt
  | k :: keys => body k ;; for_range keys body
  end.

(** [order] is an order in which [range m] may produce the keys of [m]:
    every key once.  The loops below change no key that is still to come. *)
Definition ranges (order : list string) (m : gmap string bool) : Prop :=
  NoDup order /\ forall k, k ∈ order <-> is_Some (m !! k).

Section Client.

Variable reply : hub.

(** [err := <-c.client.Send(method, contractID)]. *)
Definition send (method contractID : string) : M (option string) :=
  fun w =>
    (reply (trace w) method contractID,
     {| self := self w; trace := trace w ++ [Send method contractID] |}).

Definition Subscribe (contractID : string) : M (option string) :=
  c ← get;
  if negb (isConnected c) then mret (Some "not connected to SignalR hub") else
  err ← send "SubscribeContractQuotes" contractID;
  match err with
  | Some e => mret (Some ("failed to subscribe to quotes: " +:+ e))
  | None =>
  err ← send "SubscribeContractTrades" contractID;
  match err with
  | Some e => mret (Some ("failed to subscribe to trades: " +:+ e))
  | None =>
  err ← send "SubscribeContractMarketDepth" contractID;
  match err with
  | Some e => mret (Some ("failed to subscribe to market depth: " +:+ e))
  | None =>
  modify (fun c => with_subscriptions c (<[contractID := true]> (subscriptions c)));;
  mret None
  end end end.

Definition unsubscribe (contractID : string) : M (option string) :=
  c ← get;
  if negb (isConnected c) then mret (Some "not connected to SignalR hub") else
  err ← send "UnsubscribeContractQuotes" contractID;
  match err with
  | Some e => mret (Some ("failed to unsubscribe from quotes: " +:+ e))
  | None =>
  err ← send "UnsubscribeContractTrades" contractID;
  match err with
  | Some e => mret (Some ("failed to unsubscribe from trades: " +:+ e))
  | None =>
  err ← send "UnsubscribeContractMarketDepth" contractID;
  match err with
  | Some e => mret (Some ("failed to unsubscribe from market depth: " +:+ e))
  | None =>
  modify (fun c => with_subscriptions c (delete contractID (subscriptions c)));;
  mret None
  end end end.

Definition Unsubscribe (contractID : string) : M (option string) :=
  unsubscribe contractID.

Definition IsConnected : M bool :=
  c ← get; mret (isConnected c).

Definition Start : M (option string) :=
  act ClientStart;; mret None.

(** [order] is the order in which [range c.subscriptions] runs. *)
Definition OnConnected (connectionID : string) (order : list string) : M unit :=
  modify (fun c => with_isConnected c true);;
  act (Printf ("SignalR connected with ID: " +:+ connectionID));;
  for_range order (fun contractID =>
    err ← Subscribe contractID;
    match err with
    | Some e => act (Printf ("Failed to resubscribe to " +:+ contractID +:+ ": " +:+ e))
    | None => mret tt
    end).

Definition OnDisconnected (connectionID : string) : M unit :=
  modify (fun c => with_isConnected c false);;
  modify (fun c => with_reconnectCount c (Int64.wrap64 (reconnectCount c + 1)));;
  c ← get;
  act (Printf ("SignalR disconnected (attempt " +:+ pretty (reconnectCount c) +:+ ")")).

Definition Stop (order : list string) : M (option string) :=
  for_range order (fun contractID =>
    err ← unsubscribe contractID;
    match err with
    | Some e => act (Printf ("Failed to unsubscribe from " +:+ contractID +:+ ": " +:+ e))
    | None => mret tt
    end);;
  act Cancel;;
  modify (fun c => with_isConnected c false);;
  act ClientStop;;
  mret None.

End Client.

(** The state [NewSignalRClient] returns: nothing subscribed, not connected. *)
Definition NewSignalRClient : world :=
  {| self := {| subscriptions := ∅; isConnected := false; reconnectCount := 0 |};
     trace := [] |}.

(* ===================================================================== *)
(** * Client: the REST client *)
(* ===================================================================== *)

(** Go errors, as far as the package tells them apart: its sentinel
    [ErrUnauthorized]; an error made from text ([errors.New], [fmt.Errorf]
    without [%w], and the errors of net/http and encoding/json); and an
    error that wraps another with [%w]. *)
Inductive error :=
  | ErrUnauthorized
  | Errorf (text : string)
  | Wrapf (prefix : string) (err : error).

(** [errors.Is(err, ErrUnauthorized)] *)
Fixpoint Is_ErrUnauthorized (err : error) : bool :=
  match err with
  | ErrUnauthorized => true
  | Errorf _ => false
  | Wrapf _ err => Is_ErrUnauthorized err
  end.

(** A function value of type [func() error] is known by a name; what a
    call of it does is given by the environment. *)
Definition func := nat.

Record Client := {
  BaseURL   : string;
  Token     : string;
  UserAgent : string;
  authFunc  : option func
}.

Definition with_Token (c : Client) (t : string) :=
  {| BaseURL := BaseURL c; Token := t; UserAgent := UserAgent c;
     authFunc := authFunc c |}.

Definition NewClient (baseURL : string) : Client :=
  {| BaseURL := baseURL; Token := ""; UserAgent := "ProjectX-Go-Client/1.0";
     authFunc := None |}.

Definition GetToken (c : Client) : string := Token c.

Definition WithAutoRetry (authFn : option func) (c : Client) : Client :=
  {| BaseURL := BaseURL c; Token := Token c; UserAgent := UserAgent c;
     authFunc := authFn |}.

Record Request := {
  Method : string;
  URL    : string;
  Header : gmap string string;
  Body   : option string
}.

Record Response := {
  StatusCode : Z;
  RespBody   : string
}.

(** What the client does to the outside world. *)
Inductive event :=
  | Sent (req : Request)      (* http.DefaultClient.Do(req) *)
  | AuthCalled (f : func).    (* c.authFunc() *)

(** The client together with everything it has done so far. *)
Record rest := {
  this   : Client;
  events : list event
}.

(** encoding/json, for the type of a request and of a response:
    [json.Marshal] gives an error or the bytes; [Decode] updates the value
    [out] points to and may fail. *)
Class Marshaler (B : Type) := Marshal : B -> string + string.
Class Decoder (R : Type) := Decode : string -> R -> option string * R.

Section REST.

(** The error, if any, [http.NewRequest] finds in a method and a URL. *)
Variable NewRequest_error : string -> string -> option string.

(** [http.DefaultClient.Do]: a transport error or the response of the
    server, which may depend on everything the client did before. *)
Variable Do : list event -> Request -> string + Response.

(** A call of a function value: its error, and what it did. *)
Variable invoke : func -> rest -> option error * rest.

Definition doOnce {R} `{Decoder R} (method url : string) (body : option string)
    (out : option R) (w : rest) : option error * option R * rest :=
  match NewRequest_error method url with
  | Some e => (Some (Errorf e), out, w)
  | None =>
      let c := this w in
      let h : gmap string string := <["Content-Type"%string := "application/json"%string]> ∅ in
      let h := <["Accept"%string := "text/plain"%string]> h in
      let h := if decide (Token c <> ""%string)
               then <["Authorization"%string := "Bearer " +:+ Token c]> h else h in
      let h := <["User-Agent"%string := UserAgent c]> h in
      let req := {| Method := method; URL := url; Header := h; Body := body |} in
      let w1 := {| this := c; events := events w ++ [Sent req] |} in
      match Do (events w) req with
      | inl e => (Some (Errorf e), out, w1)
      | inr resp =>
          if StatusCode resp =? 401 then (Some ErrUnauthorized, out, w1)
          else match out with
               | Some r =>
                   let '(e, r') := Decode (RespBody resp) r in
                   (Errorf <$> e, Some r', w1)
               | None => (None, None, w1)
               end
      end
  end.

Definition doRequest {B R} `{Marshaler B} `{Decoder R} (method endpoint : string)
    (body : option B) (out : option R) (w : rest) : option error * option R * rest :=
  let url := BaseURL (this w) +:+ endpoint in
  let marshalled : string + option string :=
    match body with
    | Some b => match Marshal b with inl e => inl e | inr bytes => inr (Some bytes) end
    | None => inr None
    end in
  match marshalled with
  | inl e => (Some (Errorf e), out, w)
  | inr reqBody =>
      let '(err, out1, w1) := doOnce method url reqBody out w in
      match err with
      | None => (None, out1, w1)
      | Some e =>
          match (if Is_ErrUnauthorized e then authFunc (this w1) else None) with
          | Some f =>
              let '(authErr, w2) :=
                invoke f {| this := this w1; events := events w1 ++ [AuthCalled f] |} in
              match authErr with
              | Some ae => (Some (Wrapf "auth refresh failed: " ae), out1, w2)
              | None => doOnce method url reqBody out1 w2
              end
          | None => (Some e, out1, w1)
          end
      end
  end.

End REST.

Record LoginRequest := {
  UserName : string;
  APIKey   : string
}.

Record LoginResponse := {
  login_Token        : string;
  login_Success      : bool;
  login_ErrorCode    : Z;
  login_ErrorMessage : string
}.

Record OrderRequest := {
  order_AccountID     : Z;
  order_ContractID    : string;
  order_Type          : Z;
  order_Side          : Z;
  order_Size          : Z;
  order_LimitPrice    : option float;
  order_StopPrice     : option float;
  order_TrailPrice    : option float;
  order_CustomTag     : option string;
  order_LinkedOrderID : option Z
}.

Record OrderResponse := {
  OrderID            : Z;
  order_Success      : bool;
  order_ErrorCode    : Z;
  order_ErrorMessage : string
}.

(** The zero values that [var resp T] declares. *)
Definition zero_LoginResponse : LoginResponse :=
  {| login_Token := ""; login_Success := false; login_ErrorCode := 0;
     login_ErrorMessage := "" |}.

Definition zero_OrderResponse : OrderResponse :=
  {| OrderID := 0; order_Success := false; order_ErrorCode := 0;
     order_ErrorMessage := "" |}.

Section API.

Variable NewRequest_error : string -> string -> option string.
Variable Do : list event -> Request -> string + Response.
Variable invoke : func -> rest -> option error * rest.
Context `{Marshaler LoginRequest} `{Decoder LoginResponse}.
Context `{Marshaler OrderRequest} `{Decoder OrderResponse}.

Definition Login (username apiKey : string) (w : rest) : option error * rest :=
  let req := {| UserName := username; APIKey := apiKey |} in
  let '(err, out, w1) :=
    doRequest NewRequest_error Do invoke "POST" "/api/Auth/loginKey"
      (Some req) (Some zero_LoginResponse) w in
  let resp := default zero_LoginResponse out in
  match err with
  | Some e => (Some e, w1)
  | None =>
      if negb (login_Success resp)
      then (Some (Errorf ("login failed: " +:+ login_ErrorMessage resp)), w1)
      else (None, {| this := with_Token (this w1) (login_Token resp);
                     events := events w1 |})
  end.

(** The result is the pair of the pointer (nil is [None]) and the error. *)
Definition PlaceOrder (order : OrderRequest) (w : rest)
    : option OrderResponse * option error * rest :=
  let '(err, out, w1) :=
    doRequest NewRequest_error Do invoke "POST" "/api/order/place"
      (Some order) (Some zero_OrderResponse) w in
  let resp := default zero_OrderResponse out in
  match err with
  | Some e => (None, Some e, w1)
  | None =>
      if negb (order_Success resp)
      then (Some resp, Some (Errorf ("order failed: " +:+ order_ErrorMessage resp)), w1)
      else (Some resp, None, w1)
  end.

End API.

(* ===================================================================== *)
(** * The vocabulary of the statements *)
(* ===================================================================== *)

(** ** The aggregator *)

(** A payload field is numeric when it is present and holds a float64. *)
Definition numeric (x : option any) : Prop := exists f, x = Some (VFloat64 f).

(** [accepted m e now price size]: [e] is a tick for the instrument of [m]
    with numeric fields, handled at clock reading [now]; [price] is the
    price it carries (the mid-price of a quote) and [size] the size of a
    trade ([None] for a quote). *)
Inductive accepted (m : MarketDataManager) :
    tick -> time.Time -> float -> option float -> Prop :=
  | accepted_quote now id data bid ask :
      id = contractID m ->
      data !! "bid"%string = Some (VFloat64 bid) ->
      data !! "ask"%string = Some (VFloat64 ask) ->
      accepted m (GatewayQuote now id data) now (Float64.mid bid ask) None
  | accepted_trade now id data price size :
      id = contractID m ->
      data !! "price"%string = Some (VFloat64 price) ->
      data !! "size"%string = Some (VFloat64 size) ->
      accepted m (GatewayTrade now id data) now price (Some size).

(** The bar [b] after the in-place update by an accepted tick. *)
Definition after_tick (b : HistoryBar) (price : float) (size : option float) : HistoryBar :=
  let b := update_prices b price in
  match size with
  | Some size => with_Vol b (Int64.wrap64 (Vol b + Float64.to_int size))
  | None => b
  end.

(** The manager after the bookkeeping that precedes the bar update. *)
Definition stamped (m : MarketDataManager) (now : time.Time) (size : option float) :=
  match size with
  | Some _ => with_lastTradeTime m now
  | None => m
  end.

(** A bar emitted by the callback occurs in the output. *)
Definition emits (out : list effect) (b : HistoryBar) : Prop := Callback b ∈ out.

(** [x] is the largest multiple of [P] not exceeding [T]. *)
Definition largest_multiple_le (P T x : Z) : Prop :=
  (exists k, x = k * P) /\ x <= T /\ forall j, j * P <= T -> j * P <= x.

(** A tick opens a bar when there is no current bar, or when the bar it
    has just updated is at least one period old. *)
Definition opens_bar (m : MarketDataManager) (now : time.Time) : Prop :=
  currentBar m = None \/
  exists b, currentBar m = Some b /\ barPeriod m <= time.Sub now (Time b).

(** The bar a tick with price [p] opens at time [now]. *)
Definition opened (P : time.Duration) (now : time.Time) (p : float) : HistoryBar :=
  {| Time := time.Truncate now P; Open := p; High := p; Low := p;
     Close := p; Vol := 0 |}.

(** The bar after a series of in-place updates, oldest first. *)
Definition updated (b : HistoryBar) (ticks : list (float * option float)) : HistoryBar :=
  fold_left (fun b t => after_tick b t.1 t.2) ticks b.

(** [applied m b es ticks]: every message of [es] is an accepted tick with
    the price and size listed in [ticks], handled less than one period
    after the start of [b]. *)
Definition applied (m : MarketDataManager) (b : HistoryBar)
    (es : list tick) (ticks : list (float * option float)) : Prop :=
  Forall2 (fun e t => exists now,
             accepted m e now t.1 t.2 /\
             time.Sub now (Time b) < barPeriod m) es ticks.

(** The volume the code adds for a tick: [int(size)] for a trade. *)
Definition volume_of (sz : option float) : Z :=
  match sz with
  | Some size => Float64.to_int size
  | None => 0
  end.

Definition volume_sum (ticks : list (float * option float)) : Z :=
  fold_right (fun t acc => volume_of t.2 + acc) 0 ticks.

(** [h] is a greatest element of [l] in the order of float64. *)
Definition is_max (h : float) (l : list float) : Prop :=
  h ∈ l /\ Forall (fun p => Float64.le p h = true) l.

Definition is_min (x : float) (l : list float) : Prop :=
  x ∈ l /\ Forall (fun p => Float64.le x p = true) l.

(** What the specification says the volume of a bar is: the sum of
    floor(size) over the trades applied to it, the opening tick included,
    quotes counting 0. *)
Definition spec_volume_of (sz : option float) : Z :=
  match sz with
  | Some size => Float64.floor size
  | None => 0
  end.

Definition spec_volume (opening : option float) (ticks : list (float * option float)) : Z :=
  spec_volume_of opening + fold_right (fun t acc => spec_volume_of t.2 + acc) 0 ticks.

(** [within m now0 now]: the reading [now] lies in the period of length
    [barPeriod m] that the bar opened at [now0] covers. *)
Definition within (m : MarketDataManager) (now0 now : time.Time) : Prop :=
  time.Truncate now0 (barPeriod m) <= now <
  time.Truncate now0 (barPeriod m) + barPeriod m.

Definition fmin (x y : float) : float := if Float64.lt x y then x else y.
Definition fmax (x y : float) : float := if Float64.lt x y then y else x.

(** low <= min(open, close) <= max(open, close) <= high *)
Definition price_invariant (b : HistoryBar) : Prop :=
  Float64.le (Low b) (fmin (Open b) (Close b)) = true /\
  Float64.le (fmin (Open b) (Close b)) (fmax (Open b) (Close b)) = true /\
  Float64.le (fmax (Open b) (Close b)) (High b) = true.

(** The clock reading a handler takes for a message. *)
Definition clock (e : tick) : time.Time :=
  match e with
  | GatewayQuote now _ _ | GatewayTrade now _ _ => now
  | GatewayDepth _ _ => 0
  end.

(** The volume a message adds when it is accepted as a trade. *)
Definition tick_volume (e : tick) : Z :=
  match e with
  | GatewayTrade _ _ data => volume_of (Some (assert_float64 (data !! "size"%string)).1)
  | _ => 0
  end.

(** The four comparisons behind [price_invariant]. *)
Definition ordered (b : HistoryBar) : Prop :=
  Float64.le (Low b) (Open b) = true /\ Float64.le (Low b) (Close b) = true /\
  Float64.le (Open b) (High b) = true /\ Float64.le (Close b) (High b) = true.

(** A tick whose price counts for the invariant: accepted, with a price
    that is a number.  Nothing is asked of its size. *)
Definition priced_tick (m : MarketDataManager) (e : tick) : Prop :=
  exists now p sz, accepted m e now p sz /\ Float64.is_nan p = false.

(** [P] holds of the current bar of the aggregator, if it has one. *)
Definition on_current (P : HistoryBar -> Prop) (m : MarketDataManager) : Prop :=
  forall b, currentBar m = Some b -> P b.

Definition volume_nonneg (b : HistoryBar) : Prop := 0 <= Vol b.

(** ** The client *)

(** The three requests of a subscription and of its teardown. *)
Definition subscribe_requests (id : string) : list action :=
  [Send "SubscribeContractQuotes" id; Send "SubscribeContractTrades" id;
   Send "SubscribeContractMarketDepth" id].

Definition unsubscribe_requests (id : string) : list action :=
  [Send "UnsubscribeContractQuotes" id; Send "UnsubscribeContractTrades" id;
   Send "UnsubscribeContractMarketDepth" id].

(** The hub's answers to three requests sent in a row after [tr]. *)
Definition answers (reply : hub) (tr : list action) (m1 m2 m3 id : string)
    : option string * option string * option string :=
  (reply tr m1 id,
   reply (tr ++ [Send m1 id]) m2 id,
   reply (tr ++ [Send m1 id; Send m2 id]) m3 id).

Definition subscribe_answers (reply : hub) (tr : list action) (id : string) :=
  answers reply tr "SubscribeContractQuotes" "SubscribeContractTrades"
    "SubscribeContractMarketDepth" id.

Definition unsubscribe_answers (reply : hub) (tr : list action) (id : string) :=
  answers reply tr "UnsubscribeContractQuotes" "UnsubscribeContractTrades"
    "UnsubscribeContractMarketDepth" id.

(** The line [OnConnected] logs when the resubscription of [k] fails. *)
Definition resubscribe_failure (k e : string) : action :=
  Printf ("Failed to resubscribe to " +:+ k +:+ ": " +:+ e).

(** The line [Stop] logs when the teardown of [k] fails with [e]. *)
Definition unsubscribe_failure (k e : string) : action :=
  Printf ("Failed to unsubscribe from " +:+ k +:+ ": " +:+ e).

(** The loop bodies of [OnConnected] and [Stop]. *)
Definition resubscribe (reply : hub) (contractID : string) : M unit :=
  err ← Subscribe reply contractID;
  match err with
  | Some e => act (resubscribe_failure contractID e)
  | None => mret tt
  end.

Definition teardown (reply : hub) (contractID : string) : M unit :=
  err ← unsubscribe reply contractID;
  match err with
  | Some e => act (unsubscribe_failure contractID e)
  | None => mret tt
  end.

(** ** Inputs of the examples *)

(** An aggregator for instrument "X" with a 1-minute period and a callback. *)
Definition example_manager : MarketDataManager := NewMarketDataManager "X" 1 true.

(** 10:00:00 on a day that starts 63000028800 s (729167 days) after the
    zero time. *)
Definition ten_oclock : time.Time := (63000028800 + 10 * 3600) * time.Second.

Definition bar_at_ten : HistoryBar :=
  {| Time := ten_oclock; Open := 100; High := 101; Low := 99;
     Close := 100.5; Vol := 7 |}.

(** A hub that accepts every request. *)
Definition always_ok : hub := fun _ _ _ => None.

(** A hub that refuses trade subscriptions and accepts everything else. *)
Definition no_trades : hub :=
  fun _ method _ =>
    if decide (method = "SubscribeContractTrades"%string)
    then Some "refused"%string else None.

(** A hub that refuses every request. *)
Definition always_fails : hub := fun _ _ _ => Some "refused"%string.

(** A client subscribed to "ES", connected and not. *)
Definition connected_world : world :=
  {| self := {| subscriptions := {["ES" := true]}%string; isConnected := true;
                reconnectCount := 0 |};
     trace := [] |}.

Definition disconnected_world : world :=
  {| self := {| subscriptions := {["ES" := true]}%string; isConnected := false;
                reconnectCount := 1 |};
     trace := [] |}.

(** ** Runs of the aggregator *)

(** Whether the handlers get past their checks for a message: a quote or
    trade for the instrument of [m] whose two fields are float64. *)
Definition is_accepted (m : MarketDataManager) (e : tick) : bool :=
  match e with
  | GatewayQuote _ id data =>
      bool_decide (id = contractID m) &&
      (assert_float64 (data !! "bid"%string)).2 &&
      (assert_float64 (data !! "ask"%string)).2
  | GatewayTrade _ id data =>
      bool_decide (id = contractID m) &&
      (assert_float64 (data !! "price"%string)).2 &&
      (assert_float64 (data !! "size"%string)).2
  | GatewayDepth _ _ => false
  end.

(** The bars passed to the callback, in order. *)
Definition callbacks (out : list effect) : list HistoryBar :=
  flat_map (fun x => match x with Callback b => [b] | Log _ => [] end) out.

(** The clock readings of the accepted trades of a run, in order. *)
Definition trade_times (m : MarketDataManager) (es : list tick) : list time.Time :=
  flat_map (fun e => match e with
                     | GatewayTrade now _ _ => if is_accepted m e then [now] else []
                     | _ => []
                     end) es.

(** The start of the current bar, if any, is a multiple of the period. *)
Definition aligned (m : MarketDataManager) : Prop :=
  forall b, currentBar m = Some b -> exists k, Time b = k * barPeriod m.

(** Each bar of the list opens at the close of the one before it. *)
Definition chained (bars : list HistoryBar) : Prop :=
  forall i b b', bars !! i = Some b -> bars !! S i = Some b' -> Open b' = Close b.

(** ** Sequences of calls to the client *)

(** A call of one of the client's methods, by the application or by the
    SignalR library. *)
Inductive call :=
  | CallSubscribe (contractID : string)
  | CallUnsubscribe (contractID : string)
  | CallOnConnected (connectionID : string) (order : list string)
  | CallOnDisconnected (connectionID : string)
  | CallStop (order : list string)
  | CallStart
  | CallIsConnected.

Definition exec (reply : hub) (c : call) (w : world) : world :=
  match c with
  | CallSubscribe id => (Subscribe reply id w).2
  | CallUnsubscribe id => (Unsubscribe reply id w).2
  | CallOnConnected cid order => (OnConnected reply cid order w).2
  | CallOnDisconnected cid => (OnDisconnected cid w).2
  | CallStop order => (Stop reply order w).2
  | CallStart => (Start w).2
  | CallIsConnected => (IsConnected w).2
  end.

Definition exec_all (reply : hub) (cs : list call) (w : world) : world :=
  fold_left (fun w c => exec reply c w) cs w.

Definition is_OnConnected (c : call) : bool :=
  match c with CallOnConnected _ _ => true | _ => false end.

Definition is_Send (a : action) : bool :=
  match a with Send _ _ => true | _ => false end.

(** Every entry of the subscription map holds [true]. *)
Definition all_true (s : gmap string bool) : Prop :=
  forall k v, s !! k = Some v -> v = true.

(** The error of [Subscribe] and [unsubscribe] on a client that is not
    connected. *)
Definition not_connected : string := "not connected to SignalR hub".

Definition is_OnDisconnected (c : call) : bool :=
  match c with CallOnDisconnected _ => true | _ => false end.

(** The number of [OnDisconnected] calls among [cs]. *)
Definition disconnects (cs : list call) : Z :=
  Z.of_nat (length (List.filter is_OnDisconnected cs)).

(** A client of the REST API without token and without auth function. *)
Definition plain_rest : rest :=
  {| this := NewClient "https://api.example"; events := [] |}.

(** ** Requests of the REST client *)

(** The headers [doOnce] may set. *)
Definition request_headers : list string :=
  ["Content-Type"; "Accept"; "Authorization"; "User-Agent"]%string.

(** [req] is the request [doOnce] builds for client [c]: the method, URL
    and body given, the two fixed content headers, the user agent of [c],
    a bearer authorization exactly when [c] has a token, and no other
    header. *)
Definition built_by (c : Client) (method url : string) (body : option string)
    (req : Request) : Prop :=
  Method req = method /\ URL req = url /\ Body req = body /\
  Header req !! "Content-Type"%string = Some "application/json"%string /\
  Header req !! "Accept"%string = Some "text/plain"%string /\
  Header req !! "User-Agent"%string = Some (UserAgent c) /\
  Header req !! "Authorization"%string =
    (if decide (Token c = ""%string) then None else Some ("Bearer " +:+ Token c)) /\
  forall k, k ∉ request_headers -> Header req !! k = None.

(** The answer to a request is the status 401. *)
Definition unauthorized (a : string + Response) : bool :=
  match a with
  | inr resp => StatusCode resp =? 401
  | inl _ => false
  end.

(** What one attempt returns for the answer [a]: the error, and the value
    [out] points to afterwards. *)
Definition outcome {R} `{Decoder R} (a : string + Response) (out : option R)
    : option error * option R :=
  match a with
  | inl e => (Some (Errorf e), out)
  | inr resp =>
      if StatusCode resp =? 401 then (Some ErrUnauthorized, out)
      else match out with
           | Some r => (Errorf <$> (Decode (RespBody resp) r).1,
                        Some (Decode (RespBody resp) r).2)
           | None => (None, None)
           end
  end.

(** The world in which [doRequest] calls the auth function [f], after the
    events [evs]. *)
Definition at_auth (c : Client) (evs : list event) (f : func) : rest :=
  {| this := c; events := evs ++ [AuthCalled f] |}.

(** JSON codecs of the examples: a body is the error message of the
    response, empty for success, in which case the token is "T1". *)
Definition example_marshal {B} : Marshaler B := fun _ => inr "{}"%string.

Definition example_login_decoder : Decoder LoginResponse :=
  fun body _ =>
    (None, {| login_Token := "T1"; login_Success := bool_decide (body = ""%string);
              login_ErrorCode := 0; login_ErrorMessage := body |}).

Definition example_order_decoder : Decoder OrderResponse :=
  fun body _ =>
    (None, {| OrderID := 7; order_Success := bool_decide (body = ""%string);
              order_ErrorCode := 0; order_ErrorMessage := body |}).

(** A server that answers 401 to requests without authorization and 200
    with an empty body to the others. *)
Definition example_server : list event -> Request -> string + Response :=
  fun _ req =>
    match Header req !! "Authorization"%string with
    | Some _ => inr {| StatusCode := 200; RespBody := "" |}
    | None => inr {| StatusCode := 401; RespBody := "" |}
    end.

(** A server that answers 500 with the given body to everything. *)
Definition failing_server (body : string) : list event -> Request -> string + Response :=
  fun _ _ => inr {| StatusCode := 500; RespBody := body |}.

(** An auth function that installs the token "T0" and succeeds. *)
Definition example_auth : func -> rest -> option error * rest :=
  fun _ w => (None, {| this := with_Token (this w) "T0"; events := events w |}).

Definition example_rest : rest :=
  {| this := WithAutoRetry (Some 0%nat) (NewClient "https://api.example");
     events := [] |}.

Definition example_order : OrderRequest :=
  {| order_AccountID := 1; order_ContractID := "X"; order_Type := 2;
     order_Side := 0; order_Size := 1; order_LimitPrice := None;
     order_StopPrice := None; order_TrailPrice := None;
     order_CustomTag := None; order_LinkedOrderID := None |}.

(* ===================================================================== *)
(** * The order of float64 away from NaN *)
(* ===================================================================== *)

Module Float64Facts.
Import Float64.

Ltac compare_cases :=
  repeat match goal with
  | H : context [Pos.compare_cont Eq ?a ?b] |- _ =>
      change (Pos.compare_cont Eq a b) with (Pos.compare a b) in H
  | |- context [Pos.compare_cont Eq ?a ?b] =>
      change (Pos.compare_cont Eq a b) with (Pos.compare a b)
  end;
  repeat match goal with
  | H : context [Z.compare ?a ?b] |- _ => destruct (Z.compare_spec a b)
  | |- context [Z.compare ?a ?b] => destruct (Z.compare_spec a b)
  | H : context [Pos.compare ?a ?b] |- _ => destruct (Pos.compare_spec a b)
  | |- context [Pos.compare ?a ?b] => destruct (Pos.compare_spec a b)
  end.

Ltac by_signs s1 s2 s3 :=
  try (destruct s1; simpl; try congruence);
  try (destruct s2; simpl; try congruence);
  try (destruct s3; simpl; try congruence);
  compare_cases; simpl; subst; try congruence; try lia.

Lemma SFcompare_refl a : a <> S754_nan -> SFcompare a a = Some Eq.
Proof.
  destruct a as [s|s| |s m e]; simpl; intros H; try congruence.
  - destruct s; reflexivity.
  - change (Pos.compare_cont Eq m m) with (Pos.compare m m).
    rewrite Z.compare_refl, Pos.compare_refl. destruct s; reflexivity.
Qed.

Lemma SFcompare_nan_l a : SFcompare S754_nan a = None.
Proof. destruct a; reflexivity. Qed.

Lemma SFleb_total a b :
  a <> S754_nan -> b <> S754_nan -> SFltb b a = false -> SFleb a b = true.
Proof.
  unfold SFltb, SFleb.
  destruct a as [s1|s1| |s1 m1 e1], b as [s2|s2| |s2 m2 e2]; simpl;
    intros Ha Hb; try congruence; by_signs s1 s2 s1.
Qed.

Lemma SFleb_trans a b c :
  SFleb a b = true -> SFleb b c = true -> SFleb a c = true.
Proof.
  unfold SFleb.
  destruct a as [s1|s1| |s1 m1 e1], b as [s2|s2| |s2 m2 e2],
           c as [s3|s3| |s3 m3 e3]; simpl; try congruence; by_signs s1 s2 s3.
Qed.

Lemma SFltb_leb a b : SFltb a b = true -> SFleb a b = true.
Proof.
  unfold SFltb, SFleb. destruct (SFcompare a b) as [[]|]; congruence.
Qed.

Lemma is_nan_spec x : is_nan x = false <-> Prim2SF x <> S754_nan.
Proof.
  unfold is_nan, PrimFloat.is_nan. rewrite FloatAxioms.eqb_spec. unfold SFeqb. split.
  - intros H E. rewrite E in H. discriminate.
  - intros H. rewrite (SFcompare_refl _ H). reflexivity.
Qed.

Lemma le_refl x : is_nan x = false -> le x x = true.
Proof.
  intros H. apply is_nan_spec in H. unfold le.
  rewrite FloatAxioms.leb_spec. unfold SFleb. now rewrite SFcompare_refl.
Qed.

Lemma le_not_nan x y : le x y = true -> is_nan x = false /\ is_nan y = false.
Proof.
  unfold le. rewrite FloatAxioms.leb_spec. unfold SFleb. intros H.
  split; apply is_nan_spec; intros E; rewrite E in H.
  - rewrite SFcompare_nan_l in H. discriminate.
  - destruct (Prim2SF x); discriminate.
Qed.

Lemma le_trans x y z : le x y = true -> le y z = true -> le x z = true.
Proof. unfold le. rewrite !FloatAxioms.leb_spec. apply SFleb_trans. Qed.

Lemma lt_le x y : lt x y = true -> le x y = true.
Proof. unfold lt, le. rewrite FloatAxioms.ltb_spec, FloatAxioms.leb_spec. apply SFltb_leb. Qed.

Lemma gt_le x y : gt x y = true -> le y x = true.
Proof. unfold gt. apply lt_le. Qed.

(** Away from NaN, "not greater" is "at most". *)
Lemma not_gt_le x y :
  is_nan x = false -> is_nan y = false -> gt x y = false -> le x y = true.
Proof.
  intros Hx Hy. apply is_nan_spec in Hx, Hy. unfold gt, le.
  rewrite FloatAxioms.ltb_spec, FloatAxioms.leb_spec. now apply SFleb_total.
Qed.

Lemma not_lt_le x y :
  is_nan x = false -> is_nan y = false -> lt x y = false -> le y x = true.
Proof. intros Hx Hy. now apply (not_gt_le y x). Qed.

(** Rounding a non-negative mantissa never produces NaN. *)
Section Rounding.
Variables prec emax : Z.

Lemma shr_1_nonneg mrs : 0 <= shr_m mrs -> 0 <= shr_m (shr_1 mrs).
Proof.
  destruct mrs as [m r s]. simpl.
  destruct m as [|[p|p|]|[p|p|]]; simpl; lia.
Qed.

Lemma iter_shr_1_nonneg p : forall mrs,
  0 <= shr_m mrs -> 0 <= shr_m (SpecFloat.iter_pos shr_1 p mrs).
Proof.
  induction p as [p IH|p IH|]; intros mrs H; simpl.
  - apply IH, IH. now apply shr_1_nonneg.
  - now apply IH, IH.
  - now apply shr_1_nonneg.
Qed.

Lemma shr_fexp_nonneg m e l :
  0 <= m -> 0 <= shr_m (shr_fexp prec emax m e l).1.
Proof.
  intros H. unfold shr_fexp, shr.
  assert (H0 : 0 <= shr_m (shr_record_of_loc m l)) by (destruct l as [|[]]; exact H).
  destruct (_ - e); simpl; [exact H0| |exact H0].
  now apply iter_shr_1_nonneg.
Qed.

Lemma round_nearest_even_nonneg m l : 0 <= m -> 0 <= round_nearest_even m l.
Proof.
  intros H. destruct l as [|[]]; simpl; try lia.
  destruct (Z.even m); lia.
Qed.

Lemma binary_round_aux_not_nan sx mx ex lx :
  0 <= mx -> binary_round_aux prec emax sx mx ex lx <> S754_nan.
Proof.
  intros H. unfold binary_round_aux.
  pose proof (shr_fexp_nonneg mx ex lx H) as H1.
  destruct (shr_fexp prec emax mx ex lx) as [mrs' e']. simpl in H1.
  pose proof (shr_fexp_nonneg _ e' loc_Exact
                (round_nearest_even_nonneg _ (loc_of_shr_record mrs') H1)) as H2.
  destruct (shr_fexp prec emax _ e' loc_Exact) as [mrs'' e'']. simpl in H2.
  destruct (shr_m mrs''); [discriminate| |lia].
  destruct (_ <=? _); discriminate.
Qed.

Lemma binary_normalize_not_nan m e szero :
  binary_normalize prec emax m e szero <> S754_nan.
Proof.
  unfold binary_normalize, binary_round.
  destruct m; [discriminate| |];
    destruct (shl_align _ _ _); apply binary_round_aux_not_nan; lia.
Qed.

Lemma SFadd_not_nan x y :
  SFfinite x = true -> SFfinite y = true -> SFadd prec emax x y <> S754_nan.
Proof.
  destruct x as [sx|sx| |sx mx ex], y as [sy|sy| |sy my ey]; simpl;
    try discriminate; intros _ _.
  - destruct sx, sy; discriminate.
  - apply binary_normalize_not_nan.
Qed.

Lemma SFdiv_not_nan x sy my ey :
  x <> S754_nan -> SFdiv prec emax x (S754_finite sy my ey) <> S754_nan.
Proof.
  destruct x as [sx|sx| |sx mx ex]; simpl; try discriminate; [congruence|].
  intros _. unfold SFdiv_core_binary.
  set (m' := match _ - _ - _ with Z0 => Z.pos mx | Z.pos _ => _ | Z.neg _ => 0 end).
  assert (Hm : 0 <= m').
  { unfold m'. destruct (_ - _ - _); try lia. apply Z.shiftl_nonneg. lia. }
  pose proof (Z.div_pos m' (Z.pos my) Hm ltac:(lia)) as Hq.
  unfold Z.div in Hq. destruct (Z.div_eucl m' (Z.pos my)) as [q r]. simpl in Hq.
  now apply binary_round_aux_not_nan.
Qed.
End Rounding.

(** The mid-price of a finite bid and a finite ask is a number (it may
    be an infinity, when the sum overflows). *)
Lemma mid_not_nan bid ask :
  finite bid = true -> finite ask = true -> is_nan (mid bid ask) = false.
Proof.
  unfold finite. intros Hb Ha. apply is_nan_spec. unfold mid.
  rewrite div_spec, add_spec.
  change (Prim2SF 2) with (S754_finite false 4503599627370496 (-51)).
  apply SFdiv_not_nan. now apply SFadd_not_nan.
Qed.

End Float64Facts.

(* ===================================================================== *)
(** * Ticks the aggregator accepts *)
(* ===================================================================== *)

Section AggregatorFacts.

Lemma accepted_contractID m e now p sz m' :
  contractID m' = contractID m -> accepted m e now p sz -> accepted m' e now p sz.
Proof.
  intros E H. destruct H; constructor; congruence.
Qed.

(** What a handler does with an accepted tick. *)
Lemma handle_accepted m e now p sz :
  accepted m e now p sz ->
  handle m e =
    match currentBar m with
    | None => (initializeNewBar now p (stamped m now sz), [])
    | Some b => roll_over now p (stamped m now sz) (after_tick b p sz)
    end.
Proof.
  intros H. destruct H as [now id data bid ask Hid Hb Ha
                          |now id data price size Hid Hp Hs]; simpl.
  - unfold OnQuote. rewrite Hb, Ha. simpl.
    destruct (decide (id <> contractID m)) as [Hne|_]; [congruence|].
    destruct (currentBar m); reflexivity.
  - unfold OnTrade. rewrite Hp, Hs. simpl.
    destruct (decide (id <> contractID m)) as [Hne|_]; [congruence|].
    destruct (currentBar m); reflexivity.
Qed.

(** What a handler does with any other message: nothing but, for bad
    fields, a log line. *)
Lemma handle_not_accepted m e :
  (forall now p sz, ~ accepted m e now p sz) ->
  (handle m e).1 = m /\ forall b, ~ emits (handle m e).2 b.
Proof.
  intros H. destruct e as [now id data|now id data|id data]; simpl.
  - unfold OnQuote.
    destruct (decide (id <> contractID m)) as [Hne|He].
    { split; [reflexivity|]. intros ? Hb. inversion Hb. }
    destruct (data !! "bid"%string) as [[|? |bid|? |?]|] eqn:Eb;
      destruct (data !! "ask"%string) as [[|? |ask|? |?]|] eqn:Ea; simpl;
      try (split; [reflexivity|]; intros ? Hb; unfold emits in Hb;
           apply list_elem_of_singleton in Hb; discriminate).
    exfalso. apply (H now (Float64.mid bid ask) None).
    constructor; [apply dec_stable; exact He | assumption | assumption].
  - unfold OnTrade.
    destruct (decide (id <> contractID m)) as [Hne|He].
    { split; [reflexivity|]. intros ? Hb. inversion Hb. }
    destruct (data !! "price"%string) as [[|? |price|? |?]|] eqn:Eb;
      destruct (data !! "size"%string) as [[|? |size|? |?]|] eqn:Ea; simpl;
      try (split; [reflexivity|]; intros ? Hb; unfold emits in Hb;
           apply list_elem_of_singleton in Hb; discriminate).
    exfalso. apply (H now price (Some size)).
    constructor; [apply dec_stable; exact He | assumption | assumption].
  - split; [reflexivity|]. intros ? Hb. inversion Hb.
Qed.

Lemma stamped_fields m now sz :
  currentBar (stamped m now sz) = currentBar m /\
  barPeriod (stamped m now sz) = barPeriod m /\
  callback (stamped m now sz) = callback m /\
  contractID (stamped m now sz) = contractID m.
Proof. destruct sz; simpl; auto. Qed.

Lemma update_prices_fields b p :
  Time (update_prices b p) = Time b /\
  Open (update_prices b p) = Open b /\
  Vol (update_prices b p) = Vol b /\
  Close (update_prices b p) = p /\
  High (update_prices b p) = (if Float64.gt p (High b) then p else High b) /\
  Low (update_prices b p) = (if Float64.lt p (Low b) then p else Low b).
Proof.
  unfold update_prices.
  destruct (Float64.gt p (High b)); simpl;
    destruct (Float64.lt p (Low b)); simpl; auto 10.
Qed.

Lemma after_tick_fields b p sz :
  Time (after_tick b p sz) = Time b /\
  Open (after_tick b p sz) = Open b /\
  Close (after_tick b p sz) = p /\
  High (after_tick b p sz) = (if Float64.gt p (High b) then p else High b) /\
  Low (after_tick b p sz) = (if Float64.lt p (Low b) then p else Low b) /\
  Vol (after_tick b p sz) =
    match sz with
    | Some size => Int64.wrap64 (Vol b + Float64.to_int size)
    | None => Vol b
    end.
Proof.
  destruct (update_prices_fields b p) as (Ht & Ho & Hv & Hc & Hh & Hl).
  unfold after_tick.
  destruct sz; cbn [Time Open Close High Low Vol with_Vol];
    rewrite ?Hv; repeat split; assumption || reflexivity.
Qed.

Lemma Truncate_largest P T :
  0 < P -> largest_multiple_le P T (time.Truncate T P).
Proof.
  intros HP. unfold time.Truncate. destruct (Z.leb_spec P 0) as [|_]; [lia|].
  pose proof (Z.mod_pos_bound T P HP) as Hm.
  pose proof (Z.div_mod T P ltac:(lia)) as Hd.
  split; [|split].
  - exists (T / P). lia.
  - lia.
  - intros j Hj.
    assert (j <= T / P) by (apply Z.div_le_lower_bound; lia).
    nia.
Qed.

Lemma Sub_ge P now t :
  time.minDuration < P <= time.maxDuration ->
  (P <= time.Sub now t <-> P <= now - t).
Proof. unfold time.Sub, time.maxDuration, time.minDuration. lia. Qed.

Lemma Sub_lt_within P now t :
  t <= now < t + P -> time.Sub now t < P.
Proof. unfold time.Sub, time.maxDuration, time.minDuration. lia. Qed.

End AggregatorFacts.

(* ===================================================================== *)
(** * The aggregator: single ticks *)
(* ===================================================================== *)

Lemma numeric_inv x : numeric x -> exists f, assert_float64 x = (f, true) /\ x = Some (VFloat64 f).
Proof. intros [f ->]. exists f. split; reflexivity. Qed.

Lemma not_accepted_quote m now id data :
  ~ numeric (data !! "bid"%string) \/ ~ numeric (data !! "ask"%string) ->
  forall now' p sz, ~ accepted m (GatewayQuote now id data) now' p sz.
Proof.
  intros H now' p sz Hacc. inversion Hacc; subst.
  destruct H as [H|H]; apply H; eexists; eassumption.
Qed.

Lemma not_accepted_trade m now id data :
  ~ numeric (data !! "price"%string) \/ ~ numeric (data !! "size"%string) ->
  forall now' p sz, ~ accepted m (GatewayTrade now id data) now' p sz.
Proof.
  intros H now' p sz Hacc. inversion Hacc; subst.
  destruct H as [H|H]; apply H; eexists; eassumption.
Qed.

(** C6. A quote whose bid or ask, or a trade whose price or size, is missing
    or is not a float64 leaves the whole aggregator state as it was; the
    handler returns (it is a total function) and does not call the
    callback. *)
Theorem C6_malformed_tick_dropped m now id data :
  (~ numeric (data !! "bid"%string) \/ ~ numeric (data !! "ask"%string) ->
     (OnQuote now id data m).1 = m /\
     forall b, ~ emits (OnQuote now id data m).2 b) /\
  (~ numeric (data !! "price"%string) \/ ~ numeric (data !! "size"%string) ->
     (OnTrade now id data m).1 = m /\
     forall b, ~ emits (OnTrade now id data m).2 b).
Proof.
  split; intros H.
  - apply (handle_not_accepted m (GatewayQuote now id data)).
    now apply not_accepted_quote.
  - apply (handle_not_accepted m (GatewayTrade now id data)).
    now apply not_accepted_trade.
Qed.

(** C6 at a quote whose bid is a string and at a trade without a size. *)
Lemma C6_malformed_tick_dropped_witness :
  let m := with_currentBar example_manager (Some bar_at_ten) in
  (OnQuote ten_oclock "X" (<["bid"%string := VString "100"]> (quote 1 2)) m).1 = m /\
  (OnTrade ten_oclock "X" (delete "size"%string (trade 1 2)) m).1 = m.
Proof.
  split.
  - apply (proj1 (C6_malformed_tick_dropped _ ten_oclock "X" _)).
    left. intros [f Hf]. vm_compute in Hf. discriminate.
  - apply (proj2 (C6_malformed_tick_dropped _ ten_oclock "X" _)).
    right. intros [f Hf]. vm_compute in Hf. discriminate.
Defined.

Lemma initializeNewBar_aligned m T price :
  0 < barPeriod m ->
  exists b, currentBar (initializeNewBar T price m) = Some b /\
            largest_multiple_le (barPeriod m) T (Time b) /\
            Open b = price /\ High b = price /\ Low b = price /\
            Close b = price /\ Vol b = 0.
Proof.
  intros HP. eexists. split; [reflexivity|]. simpl.
  split; [now apply Truncate_largest|]. auto.
Qed.

Lemma handle_opens m e now p sz :
  accepted m e now p sz -> opens_bar m now ->
  (handle m e).1 = initializeNewBar now p
    (match currentBar m with
     | None => stamped m now sz
     | Some b => with_currentBar (stamped m now sz) (Some (after_tick b p sz))
     end).
Proof.
  intros Hacc Hopen. rewrite (handle_accepted _ _ _ _ _ Hacc).
  destruct Hopen as [Hnone|(b & Hb & Hel)].
  - rewrite Hnone. reflexivity.
  - rewrite Hb. unfold roll_over.
    destruct (stamped_fields m now sz) as (_ & HP & _).
    destruct (after_tick_fields b p sz) as (Ht & _).
    cbn [barPeriod with_currentBar]. rewrite HP, Ht.
    destruct (Z.leb_spec (barPeriod m) (time.Sub now (Time b))); [reflexivity|lia].
Qed.

(** Outside the contract of the constructor: a period that is not positive
    leaves the time of the tick as the start of the bar. *)
Lemma Truncate_nonpositive t d : d <= 0 -> time.Truncate t d = t.
Proof.
  intros H. unfold time.Truncate. destruct (Z.leb_spec d 0); [reflexivity|lia].
Qed.

(** C9. With a positive period P, a tick handled at time T that opens a bar
    gives it the largest multiple of P not exceeding T as its start. *)
Theorem C9_bar_alignment m e now p sz :
  0 < barPeriod m -> accepted m e now p sz -> opens_bar m now ->
  exists b, currentBar (handle m e).1 = Some b /\
            largest_multiple_le (barPeriod m) now (Time b).
Proof.
  intros HP Hacc Hopen. rewrite (handle_opens _ _ _ _ _ Hacc Hopen).
  eexists. split; [reflexivity|]. cbn [Time].
  assert (E : forall m', barPeriod m' = barPeriod m ->
            largest_multiple_le (barPeriod m) now (time.Truncate now (barPeriod m'))).
  { intros m' ->. now apply Truncate_largest. }
  apply E. destruct (stamped_fields m now sz) as (_ & HP' & _).
  destruct (currentBar m); assumption.
Qed.

(** C9 at a first tick: a 1-minute period truncates 10:00:37 to 10:00:00. *)
Lemma C9_bar_alignment_witness :
  exists b,
    currentBar (handle example_manager
      (GatewayQuote (ten_oclock + 37 * time.Second) "X" (quote 100 101))).1 = Some b /\
    largest_multiple_le (60 * time.Second) (ten_oclock + 37 * time.Second) (Time b) /\
    Time b = ten_oclock.
Proof.
  destruct (C9_bar_alignment example_manager
              (GatewayQuote (ten_oclock + 37 * time.Second) "X" (quote 100 101))
              (ten_oclock + 37 * time.Second) (Float64.mid 100 101) None)
    as (b & Hb & Hl).
  - reflexivity.
  - constructor; reflexivity.
  - left. reflexivity.
  - exists b. split; [exact Hb|]. split; [exact Hl|].
    vm_compute in Hb. injection Hb as <-. reflexivity.
Defined.

(** C4. A tick for the aggregator's instrument with numeric fields, handled
    when the current bar is at least one period old, makes exactly one
    callback call; the bar passed is the current bar already updated with
    the tick's price (and size); and the new current bar has the tick's
    price in all four price fields, volume 0, and the handling time
    truncated to the period as its start. *)
Theorem C4_roll_over m e now p sz b :
  callback m = true -> accepted m e now p sz -> currentBar m = Some b ->
  barPeriod m <= time.Sub now (Time b) ->
  let closed := after_tick b p sz in
  (handle m e).2 = [Callback closed] /\
  Time closed = Time b /\ Open closed = Open b /\ Close closed = p /\
  High closed = (if Float64.gt p (High b) then p else High b) /\
  Low closed = (if Float64.lt p (Low b) then p else Low b) /\
  currentBar (handle m e).1 =
    Some {| Time := time.Truncate now (barPeriod m);
            Open := p; High := p; Low := p; Close := p; Vol := 0 |}.
Proof.
  intros Hcb Hacc Hb Hel closed.
  destruct (after_tick_fields b p sz) as (Ht & Ho & Hc & Hh & Hl & _).
  destruct (stamped_fields m now sz) as (_ & HP & Hcb' & _).
  split; [|repeat (split; [assumption|])].
  - rewrite (handle_accepted _ _ _ _ _ Hacc), Hb. unfold roll_over.
    cbn [barPeriod with_currentBar]. rewrite HP, Ht.
    destruct (Z.leb_spec (barPeriod m) (time.Sub now (Time b))); [|lia].
    unfold closeCurrentBar. cbn. rewrite Hcb', Hcb. reflexivity.
  - rewrite (handle_opens _ _ _ _ _ Hacc) by (right; eauto).
    rewrite Hb. cbn. rewrite HP. reflexivity.
Qed.

(** C4 at a trade handled 70 s after the start of a 1-minute bar. *)
Lemma C4_roll_over_witness :
  let m := with_currentBar example_manager (Some bar_at_ten) in
  let e := GatewayTrade (ten_oclock + 70 * time.Second) "X" (trade 102 3) in
  (handle m e).2 =
    [Callback {| Time := ten_oclock; Open := 100; High := 102; Low := 99;
                 Close := 102; Vol := 10 |}] /\
  currentBar (handle m e).1 =
    Some {| Time := ten_oclock + 60 * time.Second;
            Open := 102; High := 102; Low := 102; Close := 102; Vol := 0 |}.
Proof.
  intros m e.
  destruct (C4_roll_over m e (ten_oclock + 70 * time.Second) 102 (Some 3%float)
              bar_at_ten) as (H1 & _ & _ & _ & _ & _ & H2).
  - reflexivity.
  - constructor; reflexivity.
  - reflexivity.
  - vm_compute. discriminate.
  - split; [exact H1 | exact H2].
Defined.

Lemma run_not_accepted m es :
  Forall (fun e => forall now p sz, ~ accepted m e now p sz) es ->
  (run m es).1 = m /\ forall b, ~ emits (run m es).2 b.
Proof.
  induction 1 as [|e es He _ IH]; simpl.
  - split; [reflexivity|]. intros b Hb. inversion Hb.
  - destruct (handle_not_accepted m e He) as [Hm Hout].
    destruct (handle m e) as [m1 out1]. simpl in Hm, Hout. subst m1.
    destruct IH as [IHm IHout].
    destruct (run m es) as [m2 out2]. simpl in *.
    split; [assumption|].
    intros b Hb. unfold emits in *. apply elem_of_app in Hb as [Hb|Hb].
    + exact (Hout b Hb).
    + exact (IHout b Hb).
Qed.

Lemma accepted_dec m e :
  (exists now p sz, accepted m e now p sz) \/
  (forall now p sz, ~ accepted m e now p sz).
Proof.
  destruct e as [now id data|now id data|id data].
  - destruct (decide (id = contractID m)) as [He|Hne];
      [|right; intros ? ? ? H; inversion H; congruence].
    destruct (data !! "bid"%string) as [[|? |bid|? |?]|] eqn:Eb;
      try (right; intros ? ? ? H; inversion H; congruence).
    destruct (data !! "ask"%string) as [[|? |ask|? |?]|] eqn:Ea;
      try (right; intros ? ? ? H; inversion H; congruence).
    left. do 3 eexists. econstructor; eassumption.
  - destruct (decide (id = contractID m)) as [He|Hne];
      [|right; intros ? ? ? H; inversion H; congruence].
    destruct (data !! "price"%string) as [[|? |price|? |?]|] eqn:Eb;
      try (right; intros ? ? ? H; inversion H; congruence).
    destruct (data !! "size"%string) as [[|? |size|? |?]|] eqn:Ea;
      try (right; intros ? ? ? H; inversion H; congruence).
    left. do 3 eexists. econstructor; eassumption.
  - right. intros ? ? ? H. inversion H.
Qed.

(** C10. The callback is called only while a quote or trade for the
    aggregator's instrument with numeric fields is handled, and then only
    when a current bar exists and is at least one period old: the call is
    the only one of that step and passes that older bar (updated), never
    the bar the tick opens.  Hence a tick handled when there is no current
    bar calls nothing, and no run of other messages (depth, other
    instruments, bad fields), however long, emits the current bar or
    changes the state: nothing but a tick closes a bar. *)
Theorem C10_emission_only_on_roll_over m :
  (forall e b, emits (handle m e).2 b ->
     exists now p sz b0,
       accepted m e now p sz /\ currentBar m = Some b0 /\
       barPeriod m <= time.Sub now (Time b0) /\
       b = after_tick b0 p sz /\ (handle m e).2 = [Callback b]) /\
  (forall e, currentBar m = None -> forall b, ~ emits (handle m e).2 b) /\
  (forall es,
     Forall (fun e => forall now p sz, ~ accepted m e now p sz) es ->
     (run m es).1 = m /\ forall b, ~ emits (run m es).2 b).
Proof.
  assert (A : forall e b, emits (handle m e).2 b ->
     exists now p sz b0,
       accepted m e now p sz /\ currentBar m = Some b0 /\
       barPeriod m <= time.Sub now (Time b0) /\
       b = after_tick b0 p sz /\ (handle m e).2 = [Callback b]).
  { intros e b Hb.
    destruct (accepted_dec m e) as [(now & p & sz & Hacc)|Hno].
    - rewrite (handle_accepted _ _ _ _ _ Hacc) in Hb |- *.
      destruct (currentBar m) as [b0|] eqn:Hcur.
      + unfold roll_over in *. cbn [barPeriod with_currentBar] in *.
        destruct (stamped_fields m now sz) as (_ & HP & Hcb & _).
        destruct (after_tick_fields b0 p sz) as (Ht & _).
        rewrite HP, Ht in *.
        destruct (Z.leb_spec (barPeriod m) (time.Sub now (Time b0))) as [Hle|Hlt].
        * unfold closeCurrentBar in *. cbn in Hb |- *. rewrite Hcb in *.
          destruct (callback m).
          -- unfold emits in Hb. apply list_elem_of_singleton in Hb.
             injection Hb as ->. exists now, p, sz, b0. auto.
          -- inversion Hb.
        * inversion Hb.
      + inversion Hb.
    - exfalso. exact (proj2 (handle_not_accepted m e Hno) b Hb). }
  split; [exact A|]. split.
  - intros e Hnone b Hb. destruct (A e b Hb) as (? & ? & ? & b0 & _ & Hcur & _).
    congruence.
  - apply run_not_accepted.
Qed.

(** The guard of [closeCurrentBar]: without a callback a tick still rolls
    the bar over, and nothing is emitted. *)
Lemma no_callback_no_emission m e :
  callback m = false -> (handle m e).2 = [] \/ exists line, (handle m e).2 = [Log line].
Proof.
  intros Hcb. destruct (accepted_dec m e) as [(now & p & sz & Hacc)|Hno].
  - left. rewrite (handle_accepted _ _ _ _ _ Hacc).
    destruct (stamped_fields m now sz) as (_ & _ & Hcb' & _).
    destruct (currentBar m) as [b|]; [|reflexivity].
    unfold roll_over. destruct (_ <=? _); [|reflexivity].
    unfold closeCurrentBar. cbn. now rewrite Hcb', Hcb.
  - destruct e as [now id data|now id data|id data]; cbn.
    + unfold OnQuote. destruct (decide _); [now left|].
      destruct (assert_float64 (data !! "bid"%string)) as [bid [|]];
        destruct (assert_float64 (data !! "ask"%string)) as [ask [|]]; cbn; eauto.
      left. destruct (currentBar m) as [b|]; [|reflexivity].
      unfold roll_over. destruct (_ <=? _); [|reflexivity].
      unfold closeCurrentBar. cbn. now rewrite Hcb.
    + unfold OnTrade. destruct (decide _); [now left|].
      destruct (assert_float64 (data !! "price"%string)) as [price [|]];
        destruct (assert_float64 (data !! "size"%string)) as [size [|]]; cbn; eauto.
      left. destruct (currentBar m) as [b|]; [|reflexivity].
      unfold roll_over. destruct (_ <=? _); [|reflexivity].
      unfold closeCurrentBar. cbn. now rewrite Hcb.
    + now left.
Qed.

(** The scenario of a 1-minute bar: a quote at 10:00:05 opens it, a trade
    at 10:00:30 updates it, and a quote at 10:01:10 closes it.  The bar
    emitted has that last quote's mid-price as its low and close. *)
Example roll_over_scenario :
  run example_manager
    [GatewayQuote (ten_oclock + 5 * time.Second) "X" (quote 100 100.5);
     GatewayTrade (ten_oclock + 30 * time.Second) "X" (trade 101 5);
     GatewayQuote (ten_oclock + 70 * time.Second) "X" (quote 98.5 99.5)] =
  ({| currentBar :=
        Some {| Time := ten_oclock + 60 * time.Second;
                Open := 99; High := 99; Low := 99; Close := 99; Vol := 0 |};
      lastTradeTime := ten_oclock + 30 * time.Second;
      barPeriod := time.Minute; callback := true; contractID := "X" |},
   [Callback {| Time := ten_oclock; Open := 100.25; High := 101; Low := 99;
                Close := 99; Vol := 5 |}]).
Proof. vm_compute. reflexivity. Qed.

(** C10 at the same trade: its emission implies a current bar a period old. *)
Lemma C10_emission_only_on_roll_over_witness :
  let m := with_currentBar example_manager (Some bar_at_ten) in
  exists now b0, currentBar m = Some b0 /\ barPeriod m <= time.Sub now (Time b0).
Proof.
  intros m.
  pose (e := GatewayTrade (ten_oclock + 70 * time.Second) "X" (trade 102 3)).
  assert (H : emits (handle m e).2 (after_tick bar_at_ten 102 (Some 3%float))).
  { unfold emits. apply list_elem_of_singleton. reflexivity. }
  destruct (proj1 (C10_emission_only_on_roll_over m) e _ H)
    as (now & p & sz & b0 & _ & Hcur & Hel & _).
  exists now, b0. split; assumption.
Defined.

(* ===================================================================== *)
(** * The aggregator: the life of one bar *)
(* ===================================================================== *)

Section OneBar.

Lemma updated_Time b ticks : Time (updated b ticks) = Time b.
Proof.
  revert b. induction ticks as [|t ticks IH]; intros b; [reflexivity|].
  unfold updated in *. simpl. rewrite IH.
  apply (after_tick_fields b t.1 t.2).
Qed.

Lemma updated_Open b ticks : Open (updated b ticks) = Open b.
Proof.
  revert b. induction ticks as [|t ticks IH]; intros b; [reflexivity|].
  unfold updated in *. simpl. rewrite IH.
  apply (after_tick_fields b t.1 t.2).
Qed.

Lemma last_cons {A} (l : list A) (x d : A) : List.last (x :: l) d = List.last l x.
Proof.
  revert x d. induction l as [|y l IH]; intros x d; [reflexivity|].
  change (List.last (x :: y :: l) d) with (List.last (y :: l) d).
  rewrite (IH y d), (IH y x). reflexivity.
Qed.

Lemma updated_Close b ticks :
  Close (updated b ticks) = List.last (map fst ticks) (Close b).
Proof.
  revert b. induction ticks as [|t ticks IH]; intros b; [reflexivity|].
  unfold updated in *. cbn [fold_left map]. rewrite IH.
  destruct (after_tick_fields b t.1 t.2) as (_ & _ & Hc & _). rewrite Hc.
  symmetry. apply last_cons.
Qed.

(** While no tick reaches the end of the period, the handlers keep
    updating the same bar and call nothing. *)
Lemma run_applied es : forall ticks m b,
  currentBar m = Some b -> applied m b es ticks ->
  currentBar (run m es).1 = Some (updated b ticks) /\
  (run m es).2 = [] /\
  barPeriod (run m es).1 = barPeriod m /\
  callback (run m es).1 = callback m /\
  contractID (run m es).1 = contractID m.
Proof.
  induction es as [|e es IH]; intros ticks m b Hcur Happ.
  - inversion Happ; subst. simpl. auto.
  - inversion Happ as [|e' t es' ticks' (now & Hacc & Hlt) Hrest]; subst.
    cbn [run]. rewrite (handle_accepted _ _ _ _ _ Hacc), Hcur.
    unfold roll_over. cbn [barPeriod with_currentBar].
    destruct (stamped_fields m now t.2) as (_ & HP & Hcb & Hid).
    destruct (after_tick_fields b t.1 t.2) as (Ht & _).
    rewrite HP, Ht.
    destruct (Z.leb_spec (barPeriod m) (time.Sub now (Time b))); [lia|].
    set (m1 := with_currentBar (stamped m now t.2) (Some (after_tick b t.1 t.2))).
    assert (Happ1 : applied m1 (after_tick b t.1 t.2) es ticks').
    { unfold applied in *. eapply Forall2_impl; [exact Hrest|].
      intros e1 t1 (now1 & Hacc1 & Hlt1). exists now1. split.
      - eapply accepted_contractID; [|exact Hacc1]. exact Hid.
      - rewrite Ht. cbn. rewrite HP. exact Hlt1. }
    destruct (IH ticks' m1 (after_tick b t.1 t.2) eq_refl Happ1)
      as (Hc & Ho & Hp & Hk & Hi).
    destruct (run m1 es) as [m2 out2]. simpl in *.
    rewrite Hc, Ho, Hp, Hk, Hi, HP, Hcb, Hid. auto.
Qed.

Lemma wrap64_range z : Int64.min_int64 <= Int64.wrap64 z <= Int64.max_int64.
Proof.
  unfold Int64.wrap64, Int64.min_int64, Int64.max_int64.
  pose proof (Z.mod_pos_bound (z + 2 ^ 63) (2 ^ 64) ltac:(lia)). lia.
Qed.

Lemma wrap64_id z :
  Int64.min_int64 <= z <= Int64.max_int64 -> Int64.wrap64 z = z.
Proof.
  unfold Int64.wrap64, Int64.min_int64, Int64.max_int64. intros H.
  rewrite Z.mod_small; lia.
Qed.

Lemma wrap64_add_l a b :
  Int64.wrap64 (Int64.wrap64 a + b) = Int64.wrap64 (a + b).
Proof.
  unfold Int64.wrap64. f_equal.
  replace ((a + 2 ^ 63) mod 2 ^ 64 - 2 ^ 63 + b + 2 ^ 63)
    with ((a + 2 ^ 63) mod 2 ^ 64 + b) by lia.
  rewrite Z.add_mod_idemp_l by lia. f_equal. lia.
Qed.

Lemma volume_sum_cons t ticks :
  volume_sum (t :: ticks) = volume_of t.2 + volume_sum ticks.
Proof. reflexivity. Qed.

Lemma updated_Vol b ticks :
  Int64.wrap64 (Vol (updated b ticks)) =
  Int64.wrap64 (Vol b + volume_sum ticks) /\
  (Int64.min_int64 <= Vol b <= Int64.max_int64 ->
   Int64.min_int64 <= Vol (updated b ticks) <= Int64.max_int64).
Proof.
  revert b. induction ticks as [|[p sz] ticks IH]; intros b.
  - simpl. rewrite Z.add_0_r. auto.
  - rewrite volume_sum_cons.
    change (updated b ((p, sz) :: ticks)) with (updated (after_tick b p sz) ticks).
    destruct (IH (after_tick b p sz)) as [IH1 IH2].
    destruct (after_tick_fields b p sz) as (_ & _ & _ & _ & _ & Hv).
    rewrite Hv in IH1, IH2. cbn [snd]. split.
    + rewrite IH1. destruct sz as [size|]; cbn [volume_of].
      * rewrite wrap64_add_l. f_equal. lia.
      * f_equal.
    + intros Hb. apply IH2. destruct sz; [apply wrap64_range|exact Hb].
Qed.

End OneBar.

Lemma run_cons m e es :
  (run m (e :: es)).1 = (run (handle m e).1 es).1 /\
  (run m (e :: es)).2 = (handle m e).2 ++ (run (handle m e).1 es).2.
Proof.
  simpl. destruct (handle m e) as [m1 out1]. simpl.
  destruct (run m1 es) as [m2 out2]. auto.
Qed.

Lemma run_app m es1 es2 :
  (run m (es1 ++ es2)).1 = (run (run m es1).1 es2).1 /\
  (run m (es1 ++ es2)).2 = (run m es1).2 ++ (run (run m es1).1 es2).2.
Proof.
  revert m. induction es1 as [|e es1 IH]; intros m; [simpl; auto|].
  rewrite <- app_comm_cons.
  destruct (run_cons m e (es1 ++ es2)) as [-> ->].
  destruct (run_cons m e es1) as [-> ->].
  destruct (IH (handle m e).1) as [-> ->].
  split; [reflexivity|]. now rewrite app_assoc.
Qed.

(** No handler changes the configuration of the aggregator. *)
Lemma handle_static m e :
  barPeriod (handle m e).1 = barPeriod m /\
  callback (handle m e).1 = callback m /\
  contractID (handle m e).1 = contractID m.
Proof.
  destruct (accepted_dec m e) as [(now & p & sz & Hacc)|Hno].
  - rewrite (handle_accepted _ _ _ _ _ Hacc).
    destruct (stamped_fields m now sz) as (_ & HP & Hcb & Hid).
    destruct (currentBar m) as [b|]; [|simpl; auto].
    unfold roll_over. cbn [barPeriod with_currentBar].
    destruct (_ <=? _); simpl; auto.
  - rewrite (proj1 (handle_not_accepted m e Hno)). auto.
Qed.

Lemma run_static m es :
  barPeriod (run m es).1 = barPeriod m /\
  callback (run m es).1 = callback m /\
  contractID (run m es).1 = contractID m.
Proof.
  revert m. induction es as [|e es IH]; intros m; [simpl; auto|].
  rewrite (proj1 (run_cons m e es)).
  destruct (IH (handle m e).1) as (-> & -> & ->). apply handle_static.
Qed.

(** The state after a tick that opens a bar. *)
Lemma handle_opens_fields m e now p sz :
  accepted m e now p sz -> opens_bar m now ->
  currentBar (handle m e).1 = Some (opened (barPeriod m) now p) /\
  barPeriod (handle m e).1 = barPeriod m /\
  callback (handle m e).1 = callback m /\
  contractID (handle m e).1 = contractID m.
Proof.
  intros Hacc Hopen. rewrite (handle_opens _ _ _ _ _ Hacc Hopen).
  destruct (stamped_fields m now sz) as (_ & HP & Hcb & Hid).
  unfold initializeNewBar, opened.
  destruct (currentBar m); cbn; rewrite HP, Hcb, Hid; auto.
Qed.

(** A bar from the tick that opens it to the last tick before it is a
    period old. *)
Lemma run_one_bar m e0 now0 p0 sz0 es ticks :
  accepted m e0 now0 p0 sz0 -> opens_bar m now0 ->
  applied m (opened (barPeriod m) now0 p0) es ticks ->
  currentBar (run m (e0 :: es)).1 =
    Some (updated (opened (barPeriod m) now0 p0) ticks) /\
  (run m (e0 :: es)).2 = (handle m e0).2.
Proof.
  intros Hacc Hopen Happ.
  destruct (handle_opens_fields _ _ _ _ _ Hacc Hopen) as (Hcur & HP & Hcb & Hid).
  destruct (run_cons m e0 es) as [-> ->].
  assert (Happ1 : applied (handle m e0).1 (opened (barPeriod m) now0 p0) es ticks).
  { unfold applied in *. eapply Forall2_impl; [exact Happ|].
    intros e t (now & Ha & Hl). exists now. split.
    - eapply accepted_contractID; [|exact Ha]. exact Hid.
    - rewrite HP. exact Hl. }
  destruct (run_applied es ticks _ _ Hcur Happ1) as (Hc & Ho & _).
  rewrite Hc, Ho, app_nil_r. auto.
Qed.

(* --------------------------------------------------------------------- *)
(** ** Volume *)
(* --------------------------------------------------------------------- *)

(** C2, as stated, fails on the code: a bar opened by a trade of size 5
    has volume 0, not 5; and a later trade of size -2.5 adds int(-2.5) = -2,
    not floor(-2.5) = -3. *)
Lemma C2_counterexample :
  (exists b,
     currentBar (run example_manager
       [GatewayTrade ten_oclock "X" (trade 101 5)]).1 = Some b /\
     Vol b = 0 /\ spec_volume (Some 5%float) [] = 5 /\
     Vol b <> spec_volume (Some 5%float) []) /\
  (exists b,
     currentBar (run example_manager
       [GatewayQuote ten_oclock "X" (quote 100 101);
        GatewayTrade (ten_oclock + time.Second) "X" (trade 101 (-2.5))]).1 = Some b /\
     Vol b = -2 /\ spec_volume None [(101%float, Some (-2.5)%float)] = -3 /\
     Vol b <> spec_volume None [(101%float, Some (-2.5)%float)]).
Proof.
  split; eexists; (split; [vm_compute; reflexivity|]);
    (split; [vm_compute; reflexivity|]);
    (split; [vm_compute; reflexivity|]); vm_compute; discriminate.
Qed.

(** The tick that finds the current bar at least one period old: the bar
    it has just updated is passed to the callback, if there is one, and a
    new bar is opened at the price of the tick. *)
Lemma handle_closes m e now p sz b :
  accepted m e now p sz -> currentBar m = Some b ->
  barPeriod m <= time.Sub now (Time b) ->
  (handle m e).2 = (if callback m then [Callback (after_tick b p sz)] else []) /\
  currentBar (handle m e).1 = Some (opened (barPeriod m) now p).
Proof.
  intros Hacc Hb Hel. split.
  - rewrite (handle_accepted _ _ _ _ _ Hacc), Hb. unfold roll_over.
    destruct (stamped_fields m now sz) as (_ & HP & Hcb & _).
    destruct (after_tick_fields b p sz) as (Ht & _).
    cbn [barPeriod with_currentBar]. rewrite HP, Ht.
    destruct (Z.leb_spec (barPeriod m) (time.Sub now (Time b))); [|lia].
    unfold closeCurrentBar. cbn. rewrite Hcb. reflexivity.
  - apply (handle_opens_fields m e now p sz Hacc). right. eauto.
Qed.

Lemma updated_snoc b ticks p sz :
  updated b (ticks ++ [(p, sz)]) = after_tick (updated b ticks) p sz.
Proof. unfold updated. rewrite fold_left_app. reflexivity. Qed.

(** The volume of a bar of volume 0 after a series of updates. *)
Lemma updated_Vol_opened b ticks :
  Vol b = 0 ->
  Vol (updated b ticks) = Int64.wrap64 (volume_sum ticks) /\
  (Int64.min_int64 <= volume_sum ticks <= Int64.max_int64 ->
   Vol (updated b ticks) = volume_sum ticks).
Proof.
  intros H0. destruct (updated_Vol b ticks) as [Hw Hr]. rewrite H0 in Hw, Hr.
  assert (Hv : Vol (updated b ticks) = Int64.wrap64 (volume_sum ticks)).
  { rewrite Z.add_0_l in Hw. rewrite <- Hw. symmetry. apply wrap64_id. apply Hr.
    unfold Int64.min_int64, Int64.max_int64. lia. }
  split; [exact Hv|]. intros Hfit. rewrite Hv. now apply wrap64_id.
Qed.

(** C2, amended. For a bar opened by any accepted tick (quote or trade)
    and then updated by accepted ticks less than a period after its start,
    the volume is the 64-bit wrap-around sum of int(size) over the trades
    among the updating ticks: quotes add 0, and so does the opening tick,
    whose size, if any, is not counted.  When that sum fits an int it is
    the volume.  The tick that closes the bar, handled a period or more
    after its start, is applied to it before the bar is passed to the
    callback: the emitted bar has the sum over the updating ticks and the
    closing tick, and the bar the closing tick opens starts at volume 0
    again. *)
Theorem C2_volume_amended m e0 now0 p0 sz0 es ticks :
  accepted m e0 now0 p0 sz0 -> opens_bar m now0 ->
  applied m (opened (barPeriod m) now0 p0) es ticks ->
  (exists b,
     currentBar (run m (e0 :: es)).1 = Some b /\
     Time b = time.Truncate now0 (barPeriod m) /\
     Vol b = Int64.wrap64 (volume_sum ticks) /\
     (Int64.min_int64 <= volume_sum ticks <= Int64.max_int64 ->
      Vol b = volume_sum ticks)) /\
  (forall e1 now1 p1 sz1,
     accepted m e1 now1 p1 sz1 ->
     barPeriod m <= time.Sub now1 (time.Truncate now0 (barPeriod m)) ->
     exists b b',
       (run m (e0 :: es ++ [e1])).2 =
         (handle m e0).2 ++ (if callback m then [Callback b] else []) /\
       Time b = time.Truncate now0 (barPeriod m) /\
       Vol b = Int64.wrap64 (volume_sum (ticks ++ [(p1, sz1)])) /\
       (Int64.min_int64 <= volume_sum (ticks ++ [(p1, sz1)]) <= Int64.max_int64 ->
        Vol b = volume_sum (ticks ++ [(p1, sz1)])) /\
       currentBar (run m (e0 :: es ++ [e1])).1 = Some b' /\
       Time b' = time.Truncate now1 (barPeriod m) /\ Vol b' = 0).
Proof.
  intros Hacc Hopen Happ.
  destruct (run_one_bar _ _ _ _ _ _ _ Hacc Hopen Happ) as [Hcur Hout].
  set (b0 := opened (barPeriod m) now0 p0) in *.
  split.
  - exists (updated b0 ticks). split; [exact Hcur|].
    split; [apply updated_Time|]. now apply updated_Vol_opened.
  - intros e1 now1 p1 sz1 Hacc1 Hel.
    destruct (run_static m (e0 :: es)) as (HP & Hcb & Hid).
    assert (Hacc1' : accepted (run m (e0 :: es)).1 e1 now1 p1 sz1).
    { eapply accepted_contractID; [|exact Hacc1]. exact Hid. }
    destruct (handle_closes _ _ _ _ _ _ Hacc1' Hcur) as [Hemit Hnew].
    { rewrite HP, updated_Time. exact Hel. }
    exists (updated b0 (ticks ++ [(p1, sz1)])), (opened (barPeriod m) now1 p1).
    rewrite app_comm_cons.
    destruct (run_app m (e0 :: es) [e1]) as [-> ->].
    destruct (run_cons (run m (e0 :: es)).1 e1 []) as [-> ->].
    change (run (handle (run m (e0 :: es)).1 e1).1 [])
      with ((handle (run m (e0 :: es)).1 e1).1, @nil effect).
    cbn [fst snd]. rewrite app_nil_r, Hout, Hemit, Hcb, Hnew, HP, updated_snoc.
    split; [reflexivity|]. rewrite <- updated_snoc.
    split; [apply updated_Time|].
    destruct (updated_Vol_opened b0 (ticks ++ [(p1, sz1)]) eq_refl) as [Hv Hfit].
    split; [exact Hv|]. split; [exact Hfit|]. auto.
Qed.

(** C2 (amended) at a bar opened by a trade of size 5 and updated by a
    trade of size 3.5 and a quote: the volume is 3; and closed by a trade
    of size 2 a minute after its start: the bar passed to the callback has
    volume 5. *)
Lemma C2_volume_amended_witness :
  (exists b,
     currentBar (run example_manager
       [GatewayTrade ten_oclock "X" (trade 101 5);
        GatewayTrade (ten_oclock + 10 * time.Second) "X" (trade 102 3.5);
        GatewayQuote (ten_oclock + 20 * time.Second) "X" (quote 100 101)]).1 = Some b /\
     Vol b = 3) /\
  (exists b,
     (run example_manager
       [GatewayTrade ten_oclock "X" (trade 101 5);
        GatewayTrade (ten_oclock + 10 * time.Second) "X" (trade 102 3.5);
        GatewayQuote (ten_oclock + 20 * time.Second) "X" (quote 100 101);
        GatewayTrade (ten_oclock + 60 * time.Second) "X" (trade 103 2)]).2 =
       [Callback b] /\
     Vol b = 5).
Proof.
  destruct (C2_volume_amended example_manager
              (GatewayTrade ten_oclock "X" (trade 101 5)) ten_oclock 101 (Some 5%float)
              [GatewayTrade (ten_oclock + 10 * time.Second) "X" (trade 102 3.5);
               GatewayQuote (ten_oclock + 20 * time.Second) "X" (quote 100 101)]
              [(102%float, Some 3.5%float); (Float64.mid 100 101, None)])
    as [(b & Hb & _ & Hv & _) Hclose].
  - constructor; reflexivity.
  - left. reflexivity.
  - repeat constructor.
    + exists (ten_oclock + 10 * time.Second). split; [constructor; reflexivity|].
      vm_compute. reflexivity.
    + exists (ten_oclock + 20 * time.Second). split; [constructor; reflexivity|].
      vm_compute. reflexivity.
  - split.
    + exists b. split; [exact Hb|]. rewrite Hv. vm_compute. reflexivity.
    + destruct (Hclose (GatewayTrade (ten_oclock + 60 * time.Second) "X" (trade 103 2))
                  (ten_oclock + 60 * time.Second) 103%float (Some 2%float))
        as (c & c' & Hout & _ & Hvc & _).
      * constructor; reflexivity.
      * vm_compute. discriminate.
      * exists c. split; [exact Hout|]. rewrite Hvc. vm_compute. reflexivity.
Defined.

(* --------------------------------------------------------------------- *)
(** ** Open, high, low, close *)
(* --------------------------------------------------------------------- *)

Section Extremes.
Import Float64Facts.

Lemma is_max_not_nan h l : is_max h l -> Float64.is_nan h = false.
Proof.
  intros [Hin Hall]. rewrite Forall_forall in Hall.
  exact (proj1 (le_not_nan _ _ (Hall h Hin))).
Qed.

Lemma is_min_not_nan x l : is_min x l -> Float64.is_nan x = false.
Proof.
  intros [Hin Hall]. rewrite Forall_forall in Hall.
  exact (proj1 (le_not_nan _ _ (Hall x Hin))).
Qed.

Lemma is_max_snoc h l p :
  Float64.is_nan p = false -> is_max h l ->
  is_max (if Float64.gt p h then p else h) (l ++ [p]).
Proof.
  intros Hp Hmax. pose proof (is_max_not_nan _ _ Hmax) as Hh.
  destruct Hmax as [Hin Hall].
  destruct (Float64.gt p h) eqn:Hgt; split.
  - apply elem_of_app. right. now apply list_elem_of_singleton.
  - apply Forall_app. split.
    + eapply Forall_impl; [exact Hall|]. intros q Hq. simpl in Hq.
      eapply le_trans; [exact Hq|]. now apply gt_le.
    + constructor; [now apply le_refl|constructor].
  - apply elem_of_app. now left.
  - apply Forall_app. split; [exact Hall|].
    constructor; [now apply not_gt_le|constructor].
Qed.

Lemma is_min_snoc x l p :
  Float64.is_nan p = false -> is_min x l ->
  is_min (if Float64.lt p x then p else x) (l ++ [p]).
Proof.
  intros Hp Hmin. pose proof (is_min_not_nan _ _ Hmin) as Hx.
  destruct Hmin as [Hin Hall].
  destruct (Float64.lt p x) eqn:Hlt; split.
  - apply elem_of_app. right. now apply list_elem_of_singleton.
  - apply Forall_app. split.
    + eapply Forall_impl; [exact Hall|]. intros q Hq. simpl in Hq.
      eapply le_trans; [|exact Hq]. now apply lt_le.
    + constructor; [now apply le_refl|constructor].
  - apply elem_of_app. now left.
  - apply Forall_app. split; [exact Hall|].
    constructor; [now apply not_lt_le|constructor].
Qed.

Lemma updated_extremes ticks : forall b l,
  Forall (fun t => Float64.is_nan t.1 = false) ticks ->
  is_max (High b) l -> is_min (Low b) l ->
  is_max (High (updated b ticks)) (l ++ map fst ticks) /\
  is_min (Low (updated b ticks)) (l ++ map fst ticks).
Proof.
  induction ticks as [|[p sz] ticks IH]; intros b l Hnan Hmax Hmin.
  - simpl. rewrite app_nil_r. auto.
  - inversion Hnan as [|? ? Hp Hrest]; subst. cbn [fst] in Hp.
    change (updated b ((p, sz) :: ticks)) with (updated (after_tick b p sz) ticks).
    cbn [map fst].
    replace (l ++ p :: map fst ticks) with ((l ++ [p]) ++ map fst ticks)
      by (rewrite <- app_assoc; reflexivity).
    destruct (after_tick_fields b p sz) as (_ & _ & _ & Hh & Hl & _).
    apply IH; [exact Hrest| |].
    + rewrite Hh. now apply is_max_snoc.
    + rewrite Hl. now apply is_min_snoc.
Qed.

Lemma is_max_singleton p : Float64.is_nan p = false -> is_max p [p].
Proof.
  intros Hp. split; [now apply list_elem_of_singleton|].
  constructor; [now apply le_refl|constructor].
Qed.

Lemma is_min_singleton p : Float64.is_nan p = false -> is_min p [p].
Proof.
  intros Hp. split; [now apply list_elem_of_singleton|].
  constructor; [now apply le_refl|constructor].
Qed.

End Extremes.

(** C3. A quote for the aggregator's instrument with numeric bid and ask
    opens a bar, and further such quotes arrive within that bar's period;
    the mid-prices (bid+ask)/2, as computed in float64, are numbers, as
    they are whenever bid and ask are finite ([Float64Facts.mid_not_nan]).
    Then the current bar has the first mid-price as open, the last as
    close, a greatest of them as high and a least of them as low. *)
Theorem C3_quotes_ohlc m e0 now0 p0 es ps :
  accepted m e0 now0 p0 None -> opens_bar m now0 ->
  Forall2 (fun e p => exists now, accepted m e now p None /\ within m now0 now) es ps ->
  Forall (fun p => Float64.is_nan p = false) (p0 :: ps) ->
  exists b,
    currentBar (run m (e0 :: es)).1 = Some b /\
    Open b = p0 /\
    Close b = List.last ps p0 /\
    is_max (High b) (p0 :: ps) /\
    is_min (Low b) (p0 :: ps).
Proof.
  intros Hacc Hopen Hrest Hnan.
  set (ticks := map (fun p => (p, @None float)) ps).
  assert (Hfst : map fst ticks = ps).
  { unfold ticks. rewrite map_map. simpl. apply map_id. }
  assert (Happ : applied m (opened (barPeriod m) now0 p0) es ticks).
  { unfold applied, ticks. apply Forall2_fmap_r.
    eapply Forall2_impl; [exact Hrest|].
    intros e p (now & Ha & Hw). exists now. split; [exact Ha|].
    apply Sub_lt_within. exact Hw. }
  destruct (run_one_bar _ _ _ _ _ _ _ Hacc Hopen Happ) as [Hcur _].
  apply Forall_cons in Hnan as [Hp0 Hps].
  eexists. split; [exact Hcur|].
  split; [apply updated_Open|].
  split; [rewrite updated_Close, Hfst; reflexivity|].
  change (p0 :: ps) with ([p0] ++ ps). rewrite <- Hfst.
  apply updated_extremes.
  - unfold ticks. apply Forall_fmap. eapply Forall_impl; [exact Hps|]. auto.
  - now apply is_max_singleton.
  - now apply is_min_singleton.
Qed.

(** C3 at three quotes with mid-prices 100.5, 102.5 and 99.5. *)
Lemma C3_quotes_ohlc_witness :
  exists b,
    currentBar (run example_manager
      [GatewayQuote (ten_oclock + 5 * time.Second) "X" (quote 100 101);
       GatewayQuote (ten_oclock + 20 * time.Second) "X" (quote 102 103);
       GatewayQuote (ten_oclock + 40 * time.Second) "X" (quote 99 100)]).1 = Some b /\
    Open b = 100.5%float /\ Close b = 99.5%float /\
    is_max (High b) [100.5; 102.5; 99.5]%float /\
    is_min (Low b) [100.5; 102.5; 99.5]%float.
Proof.
  apply (C3_quotes_ohlc example_manager
           (GatewayQuote (ten_oclock + 5 * time.Second) "X" (quote 100 101))
           (ten_oclock + 5 * time.Second) (Float64.mid 100 101)
           [GatewayQuote (ten_oclock + 20 * time.Second) "X" (quote 102 103);
            GatewayQuote (ten_oclock + 40 * time.Second) "X" (quote 99 100)]
           [Float64.mid 102 103; Float64.mid 99 100]).
  - constructor; reflexivity.
  - left. reflexivity.
  - repeat constructor.
    + exists (ten_oclock + 20 * time.Second). split; [constructor; reflexivity|].
      vm_compute. split; [discriminate|reflexivity].
    + exists (ten_oclock + 40 * time.Second). split; [constructor; reflexivity|].
      vm_compute. split; [discriminate|reflexivity].
  - repeat constructor.
Defined.

(* --------------------------------------------------------------------- *)
(** ** The invariant of a bar *)
(* --------------------------------------------------------------------- *)

Section Invariant.
Import Float64Facts.

Lemma ordered_price_invariant b : ordered b <-> price_invariant b.
Proof.
  unfold ordered, price_invariant, fmin, fmax. split.
  - intros (Hlo & Hlc & Hoh & Hch).
    destruct (Float64.lt (Open b) (Close b)) eqn:Hlt.
    + split; [assumption|]. split; [now apply lt_le|assumption].
    + split; [assumption|]. split; [|assumption].
      apply not_lt_le; [| |assumption].
      * exact (proj1 (le_not_nan _ _ Hoh)).
      * exact (proj1 (le_not_nan _ _ Hch)).
  - destruct (Float64.lt (Open b) (Close b)) eqn:Hlt; intros (H1 & H2 & H3).
    + repeat split; try assumption; eapply le_trans; eassumption.
    + repeat split; try assumption; eapply le_trans; eassumption.
Qed.

Lemma ordered_after_tick b p sz :
  Float64.is_nan p = false -> ordered b -> ordered (after_tick b p sz).
Proof.
  intros Hp (Hlo & Hlc & Hoh & Hch). unfold ordered.
  destruct (after_tick_fields b p sz) as (_ & -> & -> & -> & -> & _).
  pose proof (proj1 (le_not_nan _ _ Hlo)) as HL.
  pose proof (proj2 (le_not_nan _ _ Hoh)) as HH.
  repeat split.
  - destruct (Float64.lt p (Low b)) eqn:E; [|assumption].
    eapply le_trans; [apply lt_le; exact E|assumption].
  - destruct (Float64.lt p (Low b)) eqn:E; [now apply le_refl|].
    now apply not_lt_le.
  - destruct (Float64.gt p (High b)) eqn:E; [|assumption].
    eapply le_trans; [eassumption|now apply gt_le].
  - destruct (Float64.gt p (High b)) eqn:E; [now apply le_refl|].
    now apply not_gt_le.
Qed.

Lemma ordered_opened P now p : Float64.is_nan p = false -> ordered (opened P now p).
Proof. intros Hp. unfold ordered. simpl. auto using le_refl. Qed.

Lemma accepted_clock m e now p sz : accepted m e now p sz -> clock e = now.
Proof. destruct 1; reflexivity. Qed.

Lemma accepted_volume m e now p sz : accepted m e now p sz -> tick_volume e = volume_of sz.
Proof.
  destruct 1 as [| ? ? ? ? ? ? ? Hs]; [reflexivity|].
  simpl. rewrite Hs. reflexivity.
Qed.

End Invariant.

Section InvariantSteps.
Import Float64Facts.

Lemma price_invariant_after_tick b p sz :
  Float64.is_nan p = false -> price_invariant b -> price_invariant (after_tick b p sz).
Proof.
  intros Hp Hb. apply ordered_price_invariant. apply ordered_after_tick; [exact Hp|].
  now apply ordered_price_invariant.
Qed.

Lemma price_invariant_opened P now p :
  Float64.is_nan p = false -> price_invariant (opened P now p).
Proof. intros Hp. apply ordered_price_invariant. now apply ordered_opened. Qed.

(** The bars a tick leaves behind and passes on: the bar it opens, or the
    current bar updated, which it emits when it closes it. *)
Lemma handle_bars m e now p sz :
  accepted m e now p sz ->
  (forall b, currentBar (handle m e).1 = Some b ->
     b = opened (barPeriod m) now p \/
     exists b0, currentBar m = Some b0 /\ b = after_tick b0 p sz /\
                time.Sub now (Time b0) < barPeriod m) /\
  (forall b, emits (handle m e).2 b ->
     exists b0, currentBar m = Some b0 /\ b = after_tick b0 p sz) /\
  (forall b0, currentBar m = Some b0 -> time.Sub now (Time b0) < barPeriod m ->
     currentBar (handle m e).1 = Some (after_tick b0 p sz)).
Proof.
  intros Hacc. rewrite (handle_accepted _ _ _ _ _ Hacc).
  destruct (stamped_fields m now sz) as (_ & HP & Hcb & _).
  destruct (currentBar m) as [b0|] eqn:Hcur.
  - destruct (after_tick_fields b0 p sz) as (Ht & _).
    unfold roll_over. cbn [barPeriod with_currentBar]. rewrite HP, Ht.
    destruct (Z.leb_spec (barPeriod m) (time.Sub now (Time b0))) as [Hle|Hlt].
    + split; [|split].
      * intros b Hb. cbn in Hb. injection Hb as <-. left.
        unfold opened. now rewrite HP.
      * intros b Hb. unfold closeCurrentBar in Hb. cbn in Hb.
        destruct (callback _); [|inversion Hb].
        unfold emits in Hb. apply list_elem_of_singleton in Hb.
        injection Hb as ->. eauto.
      * intros b1 [= <-] Hlt. lia.
    + split; [|split].
      * intros b Hb. cbn in Hb. injection Hb as <-. right. eauto.
      * intros b Hb. inversion Hb.
      * intros b1 [= <-] _. reflexivity.
  - split; [|split].
    + intros b Hb. cbn in Hb. injection Hb as <-. left.
      unfold opened. now rewrite HP.
    + intros b Hb. inversion Hb.
    + intros b1 Hb1. discriminate.
Qed.

(** One tick with a price that is a number keeps the price invariant,
    whatever its size. *)
Lemma price_step m e :
  on_current price_invariant m -> priced_tick m e ->
  on_current price_invariant (handle m e).1 /\
  (forall b, emits (handle m e).2 b -> price_invariant b).
Proof.
  intros Hinv (now & p & sz & Hacc & Hp).
  destruct (handle_bars m e now p sz Hacc) as (Hcur & Hemit & _). split.
  - intros b Hb. destruct (Hcur b Hb) as [->|(b0 & Hb0 & -> & _)].
    + now apply price_invariant_opened.
    + apply price_invariant_after_tick; [exact Hp|]. now apply Hinv.
  - intros b Hb. destruct (Hemit b Hb) as (b0 & Hb0 & ->).
    apply price_invariant_after_tick; [exact Hp|]. now apply Hinv.
Qed.

Lemma Vol_after_tick b p sz :
  0 <= Vol b -> 0 <= volume_of sz -> Vol b + volume_of sz <= Int64.max_int64 ->
  Vol (after_tick b p sz) = Vol b + volume_of sz.
Proof.
  intros Hb Hsz Hfit.
  destruct (after_tick_fields b p sz) as (_ & _ & _ & _ & _ & ->).
  destruct sz as [size|]; simpl in *; [|lia].
  apply wrap64_id. unfold Int64.min_int64, Int64.max_int64 in *. lia.
Qed.

(** One tick whose size converts to a non-negative int that fits: the
    volume stays non-negative and does not decrease, on the bar that stays
    and on the bar that is emitted. *)
Lemma volume_step m e now p sz :
  accepted m e now p sz -> 0 <= volume_of sz ->
  on_current volume_nonneg m ->
  (forall b, currentBar m = Some b -> Vol b + volume_of sz <= Int64.max_int64) ->
  on_current volume_nonneg (handle m e).1 /\
  (forall b, emits (handle m e).2 b -> volume_nonneg b) /\
  (forall b0, currentBar m = Some b0 ->
     (forall b, emits (handle m e).2 b -> Vol b0 <= Vol b) /\
     (time.Sub now (Time b0) < barPeriod m ->
      exists b, currentBar (handle m e).1 = Some b /\
                Time b = Time b0 /\ Vol b0 <= Vol b)).
Proof.
  intros Hacc Hsz Hinv Hfit.
  destruct (handle_bars m e now p sz Hacc) as (Hcur & Hemit & Hstay).
  assert (Hv : forall b0, currentBar m = Some b0 ->
            Vol (after_tick b0 p sz) = Vol b0 + volume_of sz /\ 0 <= Vol b0).
  { intros b0 Hb0. pose proof (Hinv b0 Hb0) as H0. unfold volume_nonneg in H0.
    split; [|exact H0]. apply Vol_after_tick; auto. }
  split; [|split].
  - intros b Hb. unfold volume_nonneg.
    destruct (Hcur b Hb) as [->|(b0 & Hb0 & -> & _)]; [simpl; lia|].
    destruct (Hv b0 Hb0). lia.
  - intros b Hb. unfold volume_nonneg. destruct (Hemit b Hb) as (b0 & Hb0 & ->).
    destruct (Hv b0 Hb0). lia.
  - intros b0 Hb0. destruct (Hv b0 Hb0) as [Hvol H0]. split.
    + intros b Hb. destruct (Hemit b Hb) as (b1 & Hb1 & ->).
      assert (b1 = b0) by congruence. subst b1. lia.
    + intros Hlt. exists (after_tick b0 p sz). split; [now apply Hstay|].
      split; [apply (after_tick_fields b0 p sz)|lia].
Qed.

(** What holds at the start and is kept by every tick of a run holds
    before each of its ticks. *)
Lemma run_prefix_invariant (I : MarketDataManager -> Prop) m es :
  I m ->
  (forall pre e suf, es = pre ++ e :: suf ->
     I (run m pre).1 -> I (handle (run m pre).1 e).1) ->
  forall pre e suf, es = pre ++ e :: suf -> I (run m pre).1.
Proof.
  intros H0 Hstep pre.
  induction pre as [|e1 pre IH] using rev_ind; intros e suf Hes; [exact H0|].
  rewrite (proj1 (run_app m pre [e1])).
  rewrite <- app_assoc in Hes. cbn [app] in Hes.
  rewrite (proj1 (run_cons _ e1 [])). cbn [run fst].
  apply (Hstep pre e1 (e :: suf) Hes). exact (IH _ _ Hes).
Qed.

Lemma priced_tick_run m pre e :
  priced_tick m e -> priced_tick (run m pre).1 e.
Proof.
  intros (now & p & sz & Ha & Hp). exists now, p, sz. split; [|exact Hp].
  eapply accepted_contractID; [|exact Ha]. apply run_static.
Qed.

End InvariantSteps.

(** C7, as stated, fails on the code: a trade whose size is the float64
    -5 is numeric, and applied to a bar of volume 0 it leaves volume -5;
    and two trades of size 9e18 in one bar wrap the 64-bit volume around,
    from 9000000000000000000 down to a negative number. *)
Lemma C7_counterexample :
  (exists b,
     currentBar (run example_manager
       [GatewayQuote ten_oclock "X" (quote 100 101);
        GatewayTrade (ten_oclock + time.Second) "X" (trade 100.5 (-5))]).1 = Some b /\
     Vol b = -5 /\ ~ 0 <= Vol b) /\
  (exists b1 b2,
     currentBar (run example_manager
       [GatewayQuote ten_oclock "X" (quote 100 101);
        GatewayTrade (ten_oclock + time.Second) "X" (trade 100.5 9e18)]).1 = Some b1 /\
     currentBar (run example_manager
       [GatewayQuote ten_oclock "X" (quote 100 101);
        GatewayTrade (ten_oclock + time.Second) "X" (trade 100.5 9e18);
        GatewayTrade (ten_oclock + 2 * time.Second) "X" (trade 100.5 9e18)]).1 = Some b2 /\
     Time b2 = Time b1 /\ Vol b1 = 9000000000000000000 /\
     Vol b2 = -446744073709551616 /\ ~ Vol b1 <= Vol b2).
Proof.
  split.
  - eexists. split; [vm_compute; reflexivity|]. split; [reflexivity|].
    simpl. lia.
  - do 2 eexists. split; [vm_compute; reflexivity|].
    split; [vm_compute; reflexivity|]. split; [reflexivity|].
    split; [reflexivity|]. split; [reflexivity|]. simpl. lia.
Qed.

(** C7, amended. Start from an aggregator whose current bar, if any,
    satisfies low <= min(open, close) <= max(open, close) <= high, and
    handle any sequence of ticks for its instrument with numeric fields
    whose prices are numbers.  Then after each tick the current bar
    satisfies the same invariant, and so does every bar passed to the
    callback: nothing is asked of the sizes for this.  If moreover the
    volume of the current bar is not negative at the start, every trade size
    converts to a non-negative int and no addition overflows the 64-bit
    volume, then the volume of the current bar and of every emitted bar is
    not negative, and the volume of a bar never decreases: not while it
    stays the current bar, and not on the tick that closes it. *)
Theorem C7_bar_invariant_amended m es :
  on_current price_invariant m ->
  Forall (priced_tick m) es ->
  forall pre e suf, es = pre ++ e :: suf ->
    let m1 := (run m pre).1 in
    (on_current price_invariant (handle m1 e).1 /\
     (forall b, emits (handle m1 e).2 b -> price_invariant b)) /\
    (on_current volume_nonneg m ->
     Forall (fun e => 0 <= tick_volume e) es ->
     (forall pre e suf b, es = pre ++ e :: suf ->
        currentBar (run m pre).1 = Some b ->
        Vol b + tick_volume e <= Int64.max_int64) ->
     on_current volume_nonneg (handle m1 e).1 /\
     (forall b, emits (handle m1 e).2 b -> volume_nonneg b) /\
     (forall b0, currentBar m1 = Some b0 ->
        (forall b, emits (handle m1 e).2 b -> Vol b0 <= Vol b) /\
        (time.Sub (clock e) (Time b0) < barPeriod m ->
         exists b, currentBar (handle m1 e).1 = Some b /\
                   Time b = Time b0 /\ Vol b0 <= Vol b))).
Proof.
  intros Hinv Hpriced pre e suf Hes m1.
  assert (Hin : forall pre e suf, es = pre ++ e :: suf -> priced_tick m e).
  { intros pre' e' suf' Hes'. rewrite Forall_forall in Hpriced. apply Hpriced.
    rewrite Hes'. apply elem_of_app. right. left. }
  split.
  - apply price_step; [|apply priced_tick_run; eauto].
    refine (run_prefix_invariant (on_current price_invariant) m es Hinv _ pre e suf Hes).
    intros pre' e' suf' Hes' H'.
    apply price_step; [exact H'|apply priced_tick_run; eauto].
  - intros Hvol Hsizes Hfit.
    assert (Hstep : forall pre e suf, es = pre ++ e :: suf ->
              on_current volume_nonneg (run m pre).1 ->
              exists now p sz,
                clock e = now /\ accepted (run m pre).1 e now p sz /\
                0 <= volume_of sz /\
                (forall b, currentBar (run m pre).1 = Some b ->
                   Vol b + volume_of sz <= Int64.max_int64)).
    { intros pre' e' suf' Hes' H'.
      destruct (priced_tick_run m pre' e' (Hin _ _ _ Hes')) as (now & p & sz & Ha & _).
      exists now, p, sz. rewrite <- (accepted_volume _ _ _ _ _ Ha).
      split; [exact (accepted_clock _ _ _ _ _ Ha)|]. split; [exact Ha|]. split.
      - rewrite Forall_forall in Hsizes. apply Hsizes. rewrite Hes'.
        apply elem_of_app. right. left.
      - intros b Hb. exact (Hfit _ _ _ _ Hes' Hb). }
    assert (Hpre : on_current volume_nonneg m1).
    { refine (run_prefix_invariant (on_current volume_nonneg) m es Hvol _ pre e suf Hes).
      intros pre' e' suf' Hes' H'.
      destruct (Hstep _ _ _ Hes' H') as (now & p & sz & _ & Ha & Hs & Hf).
      exact (proj1 (volume_step _ _ _ _ _ Ha Hs H' Hf)). }
    destruct (Hstep _ _ _ Hes Hpre) as (now & p & sz & Hclock & Ha & Hs & Hf).
    rewrite Hclock, <- (proj1 (run_static m pre)).
    exact (volume_step _ _ _ _ _ Ha Hs Hpre Hf).
Qed.

(** C7 (amended) at a quote followed by a trade: with size -5 the bar has
    volume -5 and satisfies the price invariant all the same; with size 5
    it satisfies the price invariant and its volume is not negative. *)
Lemma C7_bar_invariant_amended_witness :
  (exists b,
     currentBar (handle (run example_manager
                   [GatewayQuote ten_oclock "X" (quote 100 101)]).1
                   (GatewayTrade (ten_oclock + time.Second) "X" (trade 101 (-5)))).1
       = Some b /\
     price_invariant b /\ Vol b = -5) /\
  (exists b,
     currentBar (handle (run example_manager
                   [GatewayQuote ten_oclock "X" (quote 100 101)]).1
                   (GatewayTrade (ten_oclock + time.Second) "X" (trade 101 5))).1
       = Some b /\
     price_invariant b /\ volume_nonneg b).
Proof.
  pose (q := GatewayQuote ten_oclock "X" (quote 100 101)).
  assert (H1 : on_current price_invariant example_manager).
  { intros b Hb. discriminate. }
  assert (H2 : forall size,
            Forall (priced_tick example_manager)
              [q; GatewayTrade (ten_oclock + time.Second) "X" (trade 101 size)]).
  { intros size. repeat apply Forall_cons_2; [| |apply Forall_nil_2].
    + exists ten_oclock, (Float64.mid 100 101), None.
      split; [constructor; reflexivity|reflexivity].
    + exists (ten_oclock + time.Second), 101%float, (Some size).
      split; [constructor; reflexivity|reflexivity]. }
  split.
  - pose proof (C7_bar_invariant_amended example_manager _ H1 (H2 (-5)%float)
                  [q] _ [] eq_refl) as [[Hprice _] _].
    eexists. split; [vm_compute; reflexivity|].
    split; [apply Hprice; vm_compute; reflexivity|reflexivity].
  - pose proof (C7_bar_invariant_amended example_manager _ H1 (H2 5%float)
                  [q] _ [] eq_refl) as [[Hprice _] Hvolume].
    destruct Hvolume as (Hnonneg & _ & _).
    + intros b Hb. discriminate.
    + repeat apply Forall_cons_2; [| |apply Forall_nil_2].
      * simpl. lia.
      * vm_compute. discriminate.
    + intros pre e suf b Hes Hb.
      destruct pre as [|x1 [|x2 [|x3 pre]]]; simplify_eq/=.
      vm_compute in Hb; injection Hb as <-.
      vm_compute; discriminate.
    + eexists. split; [vm_compute; reflexivity|].
      split; [apply Hprice|apply Hnonneg]; vm_compute; reflexivity.
Defined.

(* ===================================================================== *)
(** * The client: Subscribe, unsubscribe and the two loops *)
(* ===================================================================== *)

Ltac run_monad :=
  unfold Subscribe, unsubscribe, Unsubscribe, resubscribe, teardown, send, get,
    modify, act, mbind, M_bind, mret, M_ret; cbn.

Section ClientFacts.

Variable reply : hub.

Lemma Subscribe_disconnected id w :
  isConnected (self w) = false ->
  Subscribe reply id w = (Some "not connected to SignalR hub"%string, w).
Proof. intros H. run_monad. rewrite H. reflexivity. Qed.

Lemma unsubscribe_disconnected id w :
  isConnected (self w) = false ->
  unsubscribe reply id w = (Some "not connected to SignalR hub"%string, w).
Proof. intros H. run_monad. rewrite H. reflexivity. Qed.

Lemma Subscribe_connected id w :
  isConnected (self w) = true ->
  Subscribe reply id w =
    match subscribe_answers reply (trace w) id with
    | (Some e, _, _) =>
        (Some ("failed to subscribe to quotes: " +:+ e),
         {| self := self w; trace := trace w ++ take 1 (subscribe_requests id) |})
    | (None, Some e, _) =>
        (Some ("failed to subscribe to trades: " +:+ e),
         {| self := self w; trace := trace w ++ take 2 (subscribe_requests id) |})
    | (None, None, Some e) =>
        (Some ("failed to subscribe to market depth: " +:+ e),
         {| self := self w; trace := trace w ++ subscribe_requests id |})
    | (None, None, None) =>
        (None,
         {| self := with_subscriptions (self w)
                      (<[id := true]> (subscriptions (self w)));
            trace := trace w ++ subscribe_requests id |})
    end.
Proof.
  intros H. run_monad. rewrite H. cbn.
  unfold subscribe_answers, answers.
  destruct (reply (trace w) _ id); cbn; [reflexivity|].
  destruct (reply (trace w ++ [_]) _ id); cbn;
    [rewrite <- app_assoc; reflexivity|].
  rewrite <- !app_assoc. cbn.
  destruct (reply _ _ id); reflexivity.
Qed.

Lemma unsubscribe_connected id w :
  isConnected (self w) = true ->
  unsubscribe reply id w =
    match unsubscribe_answers reply (trace w) id with
    | (Some e, _, _) =>
        (Some ("failed to unsubscribe from quotes: " +:+ e),
         {| self := self w; trace := trace w ++ take 1 (unsubscribe_requests id) |})
    | (None, Some e, _) =>
        (Some ("failed to unsubscribe from trades: " +:+ e),
         {| self := self w; trace := trace w ++ take 2 (unsubscribe_requests id) |})
    | (None, None, Some e) =>
        (Some ("failed to unsubscribe from market depth: " +:+ e),
         {| self := self w; trace := trace w ++ unsubscribe_requests id |})
    | (None, None, None) =>
        (None,
         {| self := with_subscriptions (self w)
                      (delete id (subscriptions (self w)));
            trace := trace w ++ unsubscribe_requests id |})
    end.
Proof.
  intros H. run_monad. rewrite H. cbn.
  unfold unsubscribe_answers, answers.
  destruct (reply (trace w) _ id); cbn; [reflexivity|].
  destruct (reply (trace w ++ [_]) _ id); cbn;
    [rewrite <- app_assoc; reflexivity|].
  rewrite <- !app_assoc. cbn.
  destruct (reply _ _ id); reflexivity.
Qed.

End ClientFacts.

(** C5. Not connected: Subscribe returns the "not connected" error and
    changes nothing and sends nothing.  Connected: it sends the quotes,
    trades and depth registrations in that order, stopping at the first one
    the hub answers with an error; it returns an error exactly when one of
    the three fails; and the subscription set gains the instrument when all
    three succeed and is unchanged otherwise. *)
Theorem C5_subscribe reply id w :
  (isConnected (self w) = false ->
     Subscribe reply id w = (Some "not connected to SignalR hub"%string, w)) /\
  (isConnected (self w) = true ->
     let '(r1, r2, r3) := subscribe_answers reply (trace w) id in
     let '(err, w') := Subscribe reply id w in
     trace w' = trace w ++
       take (match r1, r2 with Some _, _ => 1 | None, Some _ => 2 | _, _ => 3 end)%nat
            (subscribe_requests id) /\
     (err = None <-> r1 = None /\ r2 = None /\ r3 = None) /\
     subscriptions (self w') =
       match err with
       | None => <[id := true]> (subscriptions (self w))
       | Some _ => subscriptions (self w)
       end /\
     isConnected (self w') = true /\
     reconnectCount (self w') = reconnectCount (self w)).
Proof.
  split; intros H.
  - now apply Subscribe_disconnected.
  - rewrite (Subscribe_connected reply id w H).
    destruct (subscribe_answers reply (trace w) id) as [[[e1|] [e2|]] [e3|]];
      cbn; (split; [reflexivity|]); (split; [|auto]);
      split; try discriminate; try (intros (? & ? & ?); discriminate); auto.
Qed.

(** C5 at a client that is not connected, at a hub that accepts all three
    registrations and at one that refuses the second. *)
Lemma C5_subscribe_witness :
  Subscribe always_ok "NQ" disconnected_world =
    (Some "not connected to SignalR hub"%string, disconnected_world) /\
  subscriptions (self (Subscribe always_ok "NQ" connected_world).2) !! "NQ"%string
    = Some true /\
  subscriptions (self (Subscribe no_trades "NQ" connected_world).2) !! "NQ"%string
    = None.
Proof.
  split; [|split].
  - apply (proj1 (C5_subscribe always_ok "NQ" disconnected_world)). reflexivity.
  - pose proof (proj2 (C5_subscribe always_ok "NQ" connected_world) eq_refl) as H.
    destruct (subscribe_answers always_ok (trace connected_world) "NQ")
      as [[r1 r2] r3] eqn:Er.
    vm_compute in Er. injection Er as <- <- <-.
    destruct (Subscribe always_ok "NQ" connected_world) as [err w'].
    destruct H as (_ & Herr & Hsub & _).
    rewrite (proj2 Herr) in Hsub by auto.
    cbn [snd]. rewrite Hsub. reflexivity.
  - pose proof (proj2 (C5_subscribe no_trades "NQ" connected_world) eq_refl) as H.
    destruct (subscribe_answers no_trades (trace connected_world) "NQ")
      as [[r1 r2] r3] eqn:Er.
    vm_compute in Er. injection Er as <- <- <-.
    destruct (Subscribe no_trades "NQ" connected_world) as [[e|] w'].
    + destruct H as (_ & _ & Hsub & _). cbn [snd]. rewrite Hsub. reflexivity.
    + destruct H as (_ & Herr & _).
      destruct (proj1 Herr eq_refl) as (_ & Hno & _). discriminate.
Defined.

Section StopFacts.

Variable reply : hub.

Lemma teardown_unfold id w :
  teardown reply id w =
    match unsubscribe reply id w with
    | (Some e, w1) =>
        (tt, {| self := self w1; trace := trace w1 ++ [unsubscribe_failure id e] |})
    | (None, w1) => (tt, w1)
    end.
Proof.
  unfold teardown, mbind, M_bind.
  destruct (unsubscribe reply id w) as [[e|] w1]; reflexivity.
Qed.

Lemma teardown_step id w :
  let w1 := (teardown reply id w).2 in
  isConnected (self w1) = isConnected (self w) /\
  (exists t, trace w1 = trace w ++ t) /\
  (subscriptions (self w1) = delete id (subscriptions (self w)) \/
   subscriptions (self w1) = subscriptions (self w) /\
   exists e, unsubscribe_failure id e ∈ trace w1) /\
  (isConnected (self w) = false ->
   subscriptions (self w1) = subscriptions (self w)) /\
  (isConnected (self w) = true -> (forall tr m k, reply tr m k = None) ->
   subscriptions (self w1) = delete id (subscriptions (self w))).
Proof.
  rewrite teardown_unfold.
  destruct (isConnected (self w)) eqn:Hc.
  - rewrite (unsubscribe_connected reply id w Hc).
    unfold unsubscribe_answers, answers.
    destruct (reply (trace w) _ id) as [e1|] eqn:E1;
      [|destruct (reply (trace w ++ [_]) _ id) as [e2|] eqn:E2;
        [|destruct (reply (trace w ++ [_; _]) _ id) as [e3|] eqn:E3]];
      cbn.
    + split; [assumption|]. split; [rewrite <- app_assoc; eauto|].
      split; [right; split; [reflexivity|]|].
      * eexists. apply elem_of_app. right. apply list_elem_of_singleton. reflexivity.
      * split; [discriminate|]. intros _ Hok. rewrite Hok in E1. discriminate.
    + split; [assumption|]. split; [rewrite <- app_assoc; eauto|].
      split; [right; split; [reflexivity|]|].
      * eexists. apply elem_of_app. right. apply list_elem_of_singleton. reflexivity.
      * split; [discriminate|]. intros _ Hok. rewrite Hok in E2. discriminate.
    + split; [assumption|]. split; [rewrite <- app_assoc; eauto|].
      split; [right; split; [reflexivity|]|].
      * eexists. apply elem_of_app. right. apply list_elem_of_singleton. reflexivity.
      * split; [discriminate|]. intros _ Hok. rewrite Hok in E3. discriminate.
    + split; [assumption|]. split; [eauto|]. split; [left; reflexivity|].
      split; [discriminate|reflexivity].
  - rewrite (unsubscribe_disconnected reply id w Hc). cbn.
    split; [assumption|]. split; [eauto|].
    split; [right; split; [reflexivity|]|].
    + eexists. apply elem_of_app. right. apply list_elem_of_singleton. reflexivity.
    + split; [reflexivity|discriminate].
Qed.

Lemma for_range_cons k keys body (w : world) :
  for_range (k :: keys) body w = for_range keys body (body k w).2.
Proof.
  cbn [for_range]. unfold mbind, M_bind.
  destruct (body k w) as [[] w1]. reflexivity.
Qed.

Lemma teardown_loop order : forall w,
  let w' := (for_range order (teardown reply) w).2 in
  isConnected (self w') = isConnected (self w) /\
  (exists t, trace w' = trace w ++ t) /\
  (forall k, is_Some (subscriptions (self w') !! k) ->
             is_Some (subscriptions (self w) !! k)) /\
  (forall k, k ∈ order -> is_Some (subscriptions (self w') !! k) ->
             exists e, unsubscribe_failure k e ∈ trace w') /\
  (isConnected (self w) = false ->
   subscriptions (self w') = subscriptions (self w)) /\
  (isConnected (self w) = true -> (forall tr m k, reply tr m k = None) ->
   forall k, k ∈ order -> subscriptions (self w') !! k = None).
Proof.
  induction order as [|k0 order IH]; intros w.
  - cbn. split; [reflexivity|]. split; [exists []; now rewrite app_nil_r|].
    split; [auto|]. split; [intros k Hk; inversion Hk|].
    split; [reflexivity|]. intros _ _ k Hk. inversion Hk.
  - rewrite for_range_cons.
    destruct (teardown_step k0 w) as (Hc1 & (t1 & Ht1) & Hs1 & Hd1 & Ha1).
    set (w1 := (teardown reply k0 w).2) in *.
    destruct (IH w1) as (Hc & (t & Ht) & Hsub & Hlog & Hd & Ha).
    set (w' := (for_range order (teardown reply) w1).2) in *. cbv zeta.
    split; [congruence|].
    split; [exists (t1 ++ t); rewrite Ht, Ht1, app_assoc; reflexivity|].
    assert (Hsub1 : forall k, is_Some (subscriptions (self w1) !! k) ->
                              is_Some (subscriptions (self w) !! k)).
    { intros k Hk. destruct Hs1 as [Hs1|[Hs1 _]]; rewrite Hs1 in Hk; [|exact Hk].
      destruct (decide (k0 = k)) as [->|Hne].
      - rewrite lookup_delete_eq in Hk. destruct Hk; discriminate.
      - now rewrite lookup_delete_ne in Hk. }
    split; [auto|]. split; [|split].
    + intros k Hk Hsome. apply elem_of_cons in Hk as [->|Hk]; [|now apply Hlog].
      destruct Hs1 as [Hs1|[_ (e & He)]].
      * apply Hsub in Hsome. rewrite Hs1, lookup_delete_eq in Hsome.
        destruct Hsome; discriminate.
      * exists e. rewrite Ht. apply elem_of_app. now left.
    + intros Hfalse. rewrite Hd by congruence. now apply Hd1.
    + intros Htrue Hok k Hk.
      apply elem_of_cons in Hk as [->|Hk]; [|apply Ha; [congruence|exact Hok|exact Hk]].
      destruct (subscriptions (self w') !! k0) eqn:E; [|reflexivity].
      assert (Hs : is_Some (subscriptions (self w1) !! k0)) by (apply Hsub; eauto).
      rewrite (Ha1 Htrue Hok), lookup_delete_eq in Hs. destruct Hs; discriminate.
Qed.

Lemma Stop_unfold order w :
  (Stop reply order w).2 =
    let w1 := (for_range order (teardown reply) w).2 in
    {| self := with_isConnected (self w1) false;
       trace := (trace w1 ++ [Cancel]) ++ [ClientStop] |}.
Proof.
  unfold Stop, teardown, unsubscribe_failure, mbind, M_bind. cbv zeta.
  destruct (for_range order _ w) as [[] w1]. reflexivity.
Qed.

End StopFacts.

(** C1, as stated, fails on the code: Unsubscribe on a client that is not
    connected, or whose hub refuses the first unregistration, leaves the
    instrument in the subscription set, and so does Stop. *)
Lemma C1_counterexample :
  subscriptions (self (Unsubscribe always_ok "ES" disconnected_world).2) !! "ES"%string
    = Some true /\
  subscriptions (self (Unsubscribe always_fails "ES" connected_world).2) !! "ES"%string
    = Some true /\
  subscriptions (self (Stop always_ok ["ES"%string] disconnected_world).2) !! "ES"%string
    = Some true /\
  subscriptions (self (Stop always_fails ["ES"%string] connected_world).2) !! "ES"%string
    = Some true.
Proof. repeat split; vm_compute; reflexivity. Qed.

(** C1, amended. Unsubscribe removes the instrument from the subscription
    set exactly when the client is connected and all three unregistrations
    succeed; otherwise it returns an error and leaves the set as it was.
    Stop, iterating over the set, ends disconnected and removes the entries
    whose teardown succeeded: an entry that is still present afterwards was
    present before and its failure was logged; called on a client that is
    not connected it leaves the set unchanged; called on a connected client
    whose hub accepts every request it empties the set. *)
Theorem C1_unsubscribe_amended reply id order w :
  ranges order (subscriptions (self w)) ->
  (let '(err, w') := Unsubscribe reply id w in
   (err = None <->
      isConnected (self w) = true /\
      unsubscribe_answers reply (trace w) id = (None, None, None)) /\
   subscriptions (self w') =
     match err with
     | None => delete id (subscriptions (self w))
     | Some _ => subscriptions (self w)
     end) /\
  (let w' := (Stop reply order w).2 in
   isConnected (self w') = false /\
   (forall k, is_Some (subscriptions (self w') !! k) ->
      is_Some (subscriptions (self w) !! k) /\
      exists e, unsubscribe_failure k e ∈ trace w') /\
   (isConnected (self w) = false ->
      subscriptions (self w') = subscriptions (self w)) /\
   (isConnected (self w) = true -> (forall tr m k, reply tr m k = None) ->
      subscriptions (self w') = ∅)).
Proof.
  intros [_ Hkeys]. split.
  - unfold Unsubscribe. destruct (isConnected (self w)) eqn:Hc.
    + rewrite (unsubscribe_connected reply id w Hc).
      destruct (unsubscribe_answers reply (trace w) id) as [[[e1|] [e2|]] [e3|]];
        cbn; (split; [|reflexivity]); split;
        try discriminate; try (intros [_ ?]; discriminate); auto.
    + rewrite (unsubscribe_disconnected reply id w Hc).
      split; [|reflexivity]. split; [discriminate|intros [? _]; discriminate].
  - rewrite Stop_unfold. cbv zeta.
    destruct (teardown_loop reply order w) as (Hc & (t & Ht) & Hsub & Hlog & Hd & Ha).
    set (w1 := (for_range order (teardown reply) w).2) in *. cbn.
    split; [reflexivity|]. split; [|split].
    + intros k Hk. split; [now apply Hsub|].
      destruct (Hlog k) as [e He]; [apply Hkeys; now apply Hsub|exact Hk|].
      exists e. rewrite !elem_of_app. auto.
    + exact Hd.
    + intros Htrue Hok. apply map_eq. intros k. rewrite lookup_empty.
      destruct (subscriptions (self w1) !! k) eqn:E; [|reflexivity].
      rewrite (Ha Htrue Hok k) in E; [discriminate|].
      apply Hkeys. apply Hsub. rewrite E. eauto.
Qed.

Lemma ranges_singleton k v : ranges [k] {[k := v]}.
Proof.
  split; [apply NoDup_singleton|].
  intros k'. rewrite list_elem_of_singleton. split.
  - intros ->. rewrite lookup_singleton_eq. eauto.
  - intros [v' Hv]. apply lookup_singleton_Some in Hv. now destruct Hv.
Qed.

(** C1 (amended) at Stop on a connected and on a disconnected client. *)
Lemma C1_unsubscribe_amended_witness :
  subscriptions (self (Stop always_ok ["ES"%string] connected_world).2) = ∅ /\
  subscriptions (self (Stop always_ok ["ES"%string] disconnected_world).2) =
    subscriptions (self disconnected_world).
Proof.
  split.
  - pose proof (C1_unsubscribe_amended always_ok "ES" ["ES"%string] connected_world
                  (ranges_singleton "ES"%string true)) as [_ (_ & _ & _ & H)].
    apply H; reflexivity.
  - pose proof (C1_unsubscribe_amended always_ok "ES" ["ES"%string] disconnected_world
                  (ranges_singleton "ES"%string true)) as [_ (_ & _ & H & _)].
    apply H; reflexivity.
Defined.

Section OnConnectedFacts.

Variable reply : hub.

Lemma resubscribe_unfold id w :
  resubscribe reply id w =
    match Subscribe reply id w with
    | (Some e, w1) =>
        (tt, {| self := self w1; trace := trace w1 ++ [resubscribe_failure id e] |})
    | (None, w1) => (tt, w1)
    end.
Proof.
  unfold resubscribe, mbind, M_bind.
  destruct (Subscribe reply id w) as [[e|] w1]; reflexivity.
Qed.

Lemma resubscribe_step id w :
  isConnected (self w) = true ->
  let w1 := (resubscribe reply id w).2 in
  isConnected (self w1) = true /\
  exists t, trace w1 = trace w ++ t /\
    Send "SubscribeContractQuotes" id ∈ t /\
    (subscriptions (self w1) = <[id := true]> (subscriptions (self w)) /\
     (forall a, a ∈ subscribe_requests id -> a ∈ t) \/
     subscriptions (self w1) = subscriptions (self w) /\
     exists e, resubscribe_failure id e ∈ t).
Proof.
  intros Hc. rewrite resubscribe_unfold, (Subscribe_connected reply id w Hc).
  destruct (subscribe_answers reply (trace w) id) as [[[e1|] [e2|]] [e3|]]; cbn;
    (split; [assumption|]);
    [eexists; split; [rewrite <- app_assoc; reflexivity|]..
    |eexists; split; [reflexivity|]];
    (split; [unfold subscribe_requests; cbn [take app];
             apply list_elem_of_here|]).
  1-7: right; split; [reflexivity|]; eexists; apply elem_of_app; right;
       apply list_elem_of_singleton; reflexivity.
  left. split; [reflexivity|auto].
Qed.

Lemma resubscribe_loop order : forall w,
  isConnected (self w) = true ->
  let w' := (for_range order (resubscribe reply) w).2 in
  isConnected (self w') = true /\
  (forall k, is_Some (subscriptions (self w) !! k) ->
             is_Some (subscriptions (self w') !! k)) /\
  (forall k, subscriptions (self w) !! k = Some true ->
             subscriptions (self w') !! k = Some true) /\
  (forall k, is_Some (subscriptions (self w') !! k) ->
             is_Some (subscriptions (self w) !! k) \/ k ∈ order) /\
  exists t, trace w' = trace w ++ t /\
    forall k, k ∈ order ->
      Send "SubscribeContractQuotes" k ∈ t /\
      ((forall a, a ∈ subscribe_requests k -> a ∈ t) /\
       subscriptions (self w') !! k = Some true \/
       exists e, resubscribe_failure k e ∈ t).
Proof.
  induction order as [|k0 order IH]; intros w Hc.
  - cbn. split; [assumption|]. split; [auto|]. split; [auto|]. split; [auto|].
    exists []. split; [now rewrite app_nil_r|]. intros k Hk. inversion Hk.
  - rewrite for_range_cons.
    destruct (resubscribe_step k0 w Hc) as (Hc1 & t1 & Ht1 & Hq1 & Hs1).
    set (w1 := (resubscribe reply k0 w).2) in *.
    destruct (IH w1 Hc1) as (Hc' & Hkeep & Htrue & Hback & t & Ht & Hall).
    set (w' := (for_range order (resubscribe reply) w1).2) in *. cbv zeta.
    assert (Hkeep1 : forall k, is_Some (subscriptions (self w) !! k) ->
                               is_Some (subscriptions (self w1) !! k)).
    { intros k Hk. destruct Hs1 as [[Hs1 _]|[Hs1 _]]; rewrite Hs1; [|exact Hk].
      destruct (decide (k0 = k)) as [->|Hne].
      - rewrite lookup_insert_eq. eauto.
      - now rewrite lookup_insert_ne. }
    assert (Htrue1 : forall k, subscriptions (self w) !! k = Some true ->
                               subscriptions (self w1) !! k = Some true).
    { intros k Hk. destruct Hs1 as [[Hs1 _]|[Hs1 _]]; rewrite Hs1; [|exact Hk].
      destruct (decide (k0 = k)) as [->|Hne].
      - now rewrite lookup_insert_eq.
      - now rewrite lookup_insert_ne. }
    split; [assumption|]. split; [auto|]. split; [auto|]. split.
    { intros k Hk. destruct (Hback k Hk) as [Hk1|Hin]; [|right; now right].
      destruct Hs1 as [[Hs1 _]|[Hs1 _]]; rewrite Hs1 in Hk1; [|now left].
      destruct (decide (k0 = k)) as [->|Hne]; [right; now left|].
      rewrite lookup_insert_ne in Hk1 by assumption. now left. }
    exists (t1 ++ t). split; [rewrite Ht, Ht1, app_assoc; reflexivity|].
    intros k Hk. apply elem_of_cons in Hk as [->|Hk].
    + split; [apply elem_of_app; now left|].
      destruct Hs1 as [[Hs1 Hreq]|[_ (e & He)]].
      * left. split; [intros a Ha; apply elem_of_app; left; now apply Hreq|].
        apply Htrue. rewrite Hs1. apply lookup_insert_eq.
      * right. exists e. apply elem_of_app. now left.
    + destruct (Hall k Hk) as [Hq [[Hreq Hv]|(e & He)]].
      * split; [apply elem_of_app; now right|]. left.
        split; [intros a Ha; apply elem_of_app; right; now apply Hreq|exact Hv].
      * split; [apply elem_of_app; now right|]. right. exists e.
        apply elem_of_app. now right.
Qed.

Lemma OnConnected_unfold connectionID order w :
  (OnConnected reply connectionID order w).2 =
    (for_range order (resubscribe reply)
       {| self := with_isConnected (self w) true;
          trace := trace w ++ [Printf ("SignalR connected with ID: " +:+ connectionID)] |}).2.
Proof. reflexivity. Qed.

End OnConnectedFacts.

(** C8. OnConnected marks the client connected and then, whatever the
    order of iteration and whatever the hub answers, calls Subscribe for
    every instrument of the subscription set: the quotes registration of
    each is sent.  For each instrument either all three registrations were
    sent and it is subscribed, or its failure is logged; and the
    subscription set has the same instruments afterwards as before, the
    failed ones included. *)
Theorem C8_resubscribe_on_connected reply connectionID order w :
  ranges order (subscriptions (self w)) ->
  let w' := (OnConnected reply connectionID order w).2 in
  isConnected (self w') = true /\
  (forall k, is_Some (subscriptions (self w') !! k) <->
             is_Some (subscriptions (self w) !! k)) /\
  exists t, trace w' = trace w ++ t /\
    forall k, is_Some (subscriptions (self w) !! k) ->
      Send "SubscribeContractQuotes" k ∈ t /\
      ((forall a, a ∈ subscribe_requests k -> a ∈ t) /\
       subscriptions (self w') !! k = Some true \/
       exists e, resubscribe_failure k e ∈ t).
Proof.
  intros [_ Hkeys]. rewrite OnConnected_unfold.
  set (w0 := {| self := with_isConnected (self w) true; trace := _ |}).
  destruct (resubscribe_loop reply order w0 eq_refl)
    as (Hc & Hkeep & _ & Hback & t & Ht & Hall).
  set (w' := (for_range order (resubscribe reply) w0).2) in *. cbv zeta.
  split; [assumption|]. split.
  - intros k. split.
    + intros Hk. destruct (Hback k Hk) as [H|H]; [exact H|now apply Hkeys].
    + intros Hk. now apply Hkeep.
  - eexists. split; [rewrite Ht; cbn; rewrite <- app_assoc; reflexivity|].
    intros k Hk. apply Hkeys in Hk. destruct (Hall k Hk) as [Hq Hres].
    split; [now right|].
    destruct Hres as [[Hreq Hv]|(e & He)].
    + left. split; [|exact Hv]. intros a Ha. right. now apply Hreq.
    + right. exists e. now right.
Qed.

(** C8 at a reconnect whose only resubscription fails: the instrument stays
    in the subscription set. *)
Lemma C8_resubscribe_on_connected_witness :
  isConnected (self (OnConnected no_trades "c1" ["ES"%string] disconnected_world).2)
    = true /\
  is_Some (subscriptions
             (self (OnConnected no_trades "c1" ["ES"%string] disconnected_world).2)
           !! "ES"%string).
Proof.
  pose proof (C8_resubscribe_on_connected no_trades "c1" ["ES"%string]
                disconnected_world (ranges_singleton "ES"%string true))
    as (Hc & Hkeys & _).
  split; [exact Hc|]. apply Hkeys. exists true. reflexivity.
Defined.

(* ===================================================================== *)
(** * The aggregator: whole runs *)
(* ===================================================================== *)

Lemma is_accepted_spec m e :
  is_accepted m e = true <-> exists now p sz, accepted m e now p sz.
Proof.
  split.
  - destruct e as [now id data|now id data|id data]; cbn; [| |discriminate].
    + intros H. apply andb_prop in H as [H Ha]. apply andb_prop in H as [Hid Hb].
      apply bool_decide_eq_true in Hid.
      destruct (data !! "bid"%string) as [[|? |bid|? |?]|] eqn:Eb; try discriminate.
      destruct (data !! "ask"%string) as [[|? |ask|? |?]|] eqn:Ea; try discriminate.
      do 3 eexists. econstructor; eassumption.
    + intros H. apply andb_prop in H as [H Ha]. apply andb_prop in H as [Hid Hb].
      apply bool_decide_eq_true in Hid.
      destruct (data !! "price"%string) as [[|? |price|? |?]|] eqn:Eb; try discriminate.
      destruct (data !! "size"%string) as [[|? |size|? |?]|] eqn:Ea; try discriminate.
      do 3 eexists. econstructor; eassumption.
  - intros (now & p & sz & H).
    destruct H as [now id data bid ask Hid Hb Ha|now id data price size Hid Hp Hs];
      cbn; rewrite ?Hb, ?Ha, ?Hp, ?Hs; cbn; rewrite bool_decide_eq_true_2; auto.
Qed.

Lemma is_accepted_false m e :
  is_accepted m e = false -> forall now p sz, ~ accepted m e now p sz.
Proof.
  intros H now p sz Hacc.
  assert (is_accepted m e = true) by (apply is_accepted_spec; eauto). congruence.
Qed.

Lemma is_accepted_contractID m m' e :
  contractID m' = contractID m -> is_accepted m' e = is_accepted m e.
Proof. intros H. destruct e; cbn; rewrite ?H; reflexivity. Qed.

Lemma callbacks_app out1 out2 : callbacks (out1 ++ out2) = callbacks out1 ++ callbacks out2.
Proof. unfold callbacks. apply flat_map_app. Qed.

Lemma callbacks_no_emission out : (forall b, ~ emits out b) -> callbacks out = [].
Proof.
  induction out as [|[b|line] out IH]; intros H; [reflexivity| |].
  - exfalso. apply (H b). unfold emits. left.
  - cbn. apply IH. intros b Hb. apply (H b). unfold emits in *. now right.
Qed.

(** The four things a handler can do with a message. *)
Lemma handle_cases m e :
  (is_accepted m e = false /\ (handle m e).1 = m /\ callbacks (handle m e).2 = []) \/
  (exists now p sz, accepted m e now p sz /\
     ((currentBar m = None /\
       handle m e = (initializeNewBar now p (stamped m now sz), [])) \/
      (exists b, currentBar m = Some b /\
         time.Sub now (Time b) < barPeriod m /\
         handle m e =
           (with_currentBar (stamped m now sz) (Some (after_tick b p sz)), [])) \/
      (exists b, currentBar m = Some b /\
         barPeriod m <= time.Sub now (Time b) /\
         handle m e =
           (initializeNewBar now p
              (with_currentBar (stamped m now sz) (Some (after_tick b p sz))),
            if callback m then [Callback (after_tick b p sz)] else [])))).
Proof.
  destruct (is_accepted m e) eqn:Hacc.
  - right. apply is_accepted_spec in Hacc as (now & p & sz & Hacc).
    exists now, p, sz. split; [exact Hacc|].
    rewrite (handle_accepted _ _ _ _ _ Hacc).
    destruct (stamped_fields m now sz) as (_ & HP & Hcb & _).
    destruct (currentBar m) as [b|]; [right|left; auto].
    destruct (after_tick_fields b p sz) as (Ht & _).
    unfold roll_over. cbn [barPeriod with_currentBar]. rewrite HP, Ht.
    destruct (Z.leb_spec (barPeriod m) (time.Sub now (Time b))).
    + right. exists b. split; [reflexivity|]. split; [assumption|].
      unfold closeCurrentBar. cbn. rewrite Hcb. reflexivity.
    + left. exists b. auto.
  - left. split; [reflexivity|].
    destruct (handle_not_accepted m e (is_accepted_false m e Hacc)) as [Hm Hout].
    split; [exact Hm|]. now apply callbacks_no_emission.
Qed.

Lemma filter_is_accepted_static m m' es :
  contractID m' = contractID m ->
  List.filter (is_accepted m') es = List.filter (is_accepted m) es.
Proof.
  intros H. apply List.filter_ext. intros e. now apply is_accepted_contractID.
Qed.

(** X1. Messages the handlers do not accept (depth updates, messages for
    other instruments, quotes and trades with a missing or non-float64
    field) can be removed from a run: the final state and the bars passed
    to the callback are the same. *)
Theorem run_skips_unaccepted m es :
  (run m es).1 = (run m (List.filter (is_accepted m) es)).1 /\
  callbacks (run m es).2 = callbacks (run m (List.filter (is_accepted m) es)).2.
Proof.
  revert m. induction es as [|e es IH]; intros m; [auto|].
  destruct (run_cons m e es) as [-> ->]. rewrite callbacks_app.
  destruct (handle_static m e) as (_ & _ & Hid).
  cbn [List.filter]. destruct (is_accepted m e) eqn:Hacc.
  - destruct (run_cons m e (List.filter (is_accepted m) es)) as [-> ->].
    rewrite callbacks_app.
    destruct (IH (handle m e).1) as [IH1 IH2].
    rewrite (filter_is_accepted_static m _ es Hid) in IH1, IH2.
    rewrite IH1, IH2. auto.
  - destruct (handle_cases m e) as [(_ & Hm & Hout)|(now & p & sz & Ha & _)].
    + rewrite Hm, Hout. apply IH.
    + exfalso. exact (is_accepted_false m e Hacc now p sz Ha).
Qed.

Lemma handle_emits_at_most_one m e :
  callbacks (handle m e).2 = [] \/
  exists now p sz b,
    accepted m e now p sz /\ currentBar m = Some b /\ callback m = true /\
    barPeriod m <= time.Sub now (Time b) /\
    callbacks (handle m e).2 = [after_tick b p sz].
Proof.
  destruct (handle_cases m e)
    as [(_ & _ & Hout)|(now & p & sz & Ha & [[_ ->]|[(b & _ & _ & ->)|(b & Hb & Hle & ->)]])];
    auto.
  destruct (callback m) eqn:Hcb; [|now left].
  right. exists now, p, sz, b. auto 10.
Qed.

Lemma callbacks_without_callback m es :
  callback m = false -> callbacks (run m es).2 = [].
Proof.
  revert m. induction es as [|e es IH]; intros m Hcb; [reflexivity|].
  destruct (run_cons m e es) as [_ ->]. rewrite callbacks_app.
  destruct (handle_static m e) as (_ & Hcb' & _).
  rewrite IH by congruence. rewrite app_nil_r.
  destruct (handle_emits_at_most_one m e) as [H|(? & ? & ? & ? & _ & _ & H & _)];
    [exact H|congruence].
Qed.

Lemma trade_times_static m m' es :
  contractID m' = contractID m -> trade_times m' es = trade_times m es.
Proof.
  intros H. unfold trade_times. apply flat_map_ext. intros e.
  now rewrite (is_accepted_contractID m m' e H).
Qed.

Lemma handle_lastTradeTime m e :
  lastTradeTime (handle m e).1 =
    List.last (trade_times m [e]) (lastTradeTime m).
Proof.
  unfold trade_times. cbn [flat_map]. rewrite app_nil_r.
  destruct (handle_cases m e)
    as [(Hno & Hm & _)|(now & p & sz & Ha & H)].
  - rewrite Hm, Hno. destruct e; reflexivity.
  - assert (Hyes : is_accepted m e = true) by (apply is_accepted_spec; eauto).
    rewrite Hyes.
    assert (Hl : lastTradeTime (handle m e).1 = lastTradeTime (stamped m now sz)).
    { destruct H as [[_ ->]|[(b & _ & _ & ->)|(b & _ & _ & ->)]]; reflexivity. }
    rewrite Hl. destruct Ha; reflexivity.
Qed.

(** X2. After any run, [lastTradeTime] is the clock reading of the last
    accepted trade of the run, and is what it was when there was none:
    quotes, depth updates and rejected messages never touch it. *)
Theorem run_lastTradeTime m es :
  lastTradeTime (run m es).1 = List.last (trade_times m es) (lastTradeTime m).
Proof.
  revert m. induction es as [|e es IH]; intros m; [reflexivity|].
  destruct (run_cons m e es) as [-> _]. rewrite IH.
  destruct (handle_static m e) as (_ & _ & Hid).
  rewrite (trade_times_static m _ es Hid), handle_lastTradeTime.
  replace (trade_times m (e :: es)) with (trade_times m [e] ++ trade_times m es)
    by (unfold trade_times; cbn [flat_map]; now rewrite app_nil_r).
  generalize (trade_times m [e]) (trade_times m es) (lastTradeTime m).
  intros l1 l2 d. revert d. induction l1 as [|x l1 IHl]; intros d.
  - reflexivity.
  - rewrite <- app_comm_cons, !last_cons. apply IHl.
Qed.

Lemma Sub_ge_positive P now t : 0 < P -> P <= time.Sub now t -> t + P <= now.
Proof. unfold time.Sub, time.maxDuration, time.minDuration. lia. Qed.

Lemma Sub_ge_nonpositive P now t : P <= 0 -> t <= now -> P <= time.Sub now t.
Proof. unfold time.Sub, time.maxDuration, time.minDuration. lia. Qed.

(** The start of the bar a roll-over opens lies at least one period after
    the start of an aligned bar it closes. *)
Lemma Truncate_next_period P now t :
  0 < P -> (exists k, t = k * P) -> P <= time.Sub now t ->
  t + P <= time.Truncate now P.
Proof.
  intros HP [k ->] Hle. apply Sub_ge_positive in Hle; [|exact HP].
  destruct (Truncate_largest P now HP) as (_ & _ & Hmax).
  specialize (Hmax (k + 1)). lia.
Qed.

Lemma aligned_intro m c P :
  currentBar m = Some c -> barPeriod m = P -> (exists k, Time c = k * P) -> aligned m.
Proof. intros Hc HP Hk c' Hc'. rewrite Hc in Hc'. injection Hc' as <-. now rewrite HP. Qed.

Lemma run_aligned es : forall m,
  0 < barPeriod m -> aligned m ->
  let bars := callbacks (run m es).2 in
  aligned (run m es).1 /\
  (forall c, currentBar m = Some c ->
     exists c', currentBar (run m es).1 = Some c' /\ Time c <= Time c') /\
  Forall (fun b => exists k, Time b = k * barPeriod m) bars /\
  (forall c b, currentBar m = Some c -> b ∈ bars -> Time c <= Time b) /\
  (forall b c', b ∈ bars -> currentBar (run m es).1 = Some c' ->
     Time b + barPeriod m <= Time c') /\
  StronglySorted (fun a b => Time a + barPeriod m <= Time b) bars.
Proof.
  induction es as [|e es IH]; intros m HP Hal.
  - cbn. split; [exact Hal|]. split; [intros c Hc; exists c; split; [exact Hc|lia]|].
    split; [constructor|]. split; [intros c b _ Hb; inversion Hb|].
    split; [intros b c' Hb; inversion Hb|constructor].
  - destruct (run_cons m e es) as [E1 E2]. cbv zeta. rewrite E1, E2, callbacks_app.
    destruct (handle_static m e) as (HP1 & _ & _).
    set (m1 := (handle m e).1) in *.
    destruct (handle_cases m e)
      as [(_ & Hm & Hout)
         |(now & p & sz & Ha &
           [[Hnone Hh]|[(b & Hb & Hlt & Hh)|(b & Hb & Hle & Hh)]])].
    + (* not accepted *)
      rewrite Hout. cbn [app]. unfold m1 in *. rewrite Hm in *.
      exact (IH m HP Hal).
    + (* a bar is opened *)
      destruct (stamped_fields m now sz) as (_ & HPs & _).
      assert (Hc1 : currentBar m1 = Some (opened (barPeriod m) now p)).
      { unfold m1. rewrite Hh. cbn. rewrite HPs. reflexivity. }
      assert (Hal1 : aligned m1).
      { apply (aligned_intro m1 _ _ Hc1 HP1). cbn.
        exact (proj1 (Truncate_largest _ now HP)). }
      rewrite Hh. cbn [snd callbacks flat_map app].
      destruct (IH m1 ltac:(lia) Hal1) as (A1 & A2 & A3 & A4 & A5 & A6).
      rewrite HP1 in *.
      split; [exact A1|]. split; [intros c Hc; congruence|].
      split; [exact A3|]. split; [intros c b Hc; congruence|].
      split; [exact A5|exact A6].
    + (* the current bar is updated *)
      destruct (after_tick_fields b p sz) as (Ht & _).
      assert (Hc1 : currentBar m1 = Some (after_tick b p sz))
        by (unfold m1; rewrite Hh; reflexivity).
      assert (Hal1 : aligned m1).
      { apply (aligned_intro m1 _ _ Hc1 HP1). rewrite Ht. now apply Hal. }
      rewrite Hh. cbn [snd callbacks flat_map app].
      destruct (IH m1 ltac:(lia) Hal1) as (A1 & A2 & A3 & A4 & A5 & A6).
      rewrite HP1 in *.
      split; [exact A1|]. split.
      { intros c Hc. rewrite Hb in Hc. injection Hc as <-.
        destruct (A2 _ Hc1) as (c' & Hc' & Hle). exists c'. split; [exact Hc'|].
        rewrite Ht in Hle. exact Hle. }
      split; [exact A3|]. split.
      { intros c b0 Hc Hin. rewrite Hb in Hc. injection Hc as <-.
        specialize (A4 _ b0 Hc1 Hin). rewrite Ht in A4. exact A4. }
      split; [exact A5|exact A6].
    + (* the current bar is closed and a new one opened *)
      destruct (after_tick_fields b p sz) as (Ht & _).
      destruct (stamped_fields m now sz) as (_ & HPs & _).
      assert (Hc1 : currentBar m1 =
                    Some (opened (barPeriod m) now p)).
      { unfold m1. rewrite Hh. cbn. rewrite HPs. reflexivity. }
      assert (Hnext : Time b + barPeriod m <= time.Truncate now (barPeriod m))
        by (apply Truncate_next_period; auto).
      assert (Hal1 : aligned m1).
      { apply (aligned_intro m1 _ _ Hc1 HP1). cbn.
        exact (proj1 (Truncate_largest _ now HP)). }
      destruct (IH m1 ltac:(lia) Hal1) as (A1 & A2 & A3 & A4 & A5 & A6).
      rewrite HP1 in *.
      destruct (A2 _ Hc1) as (c' & Hc' & Hle'). cbn [Time opened] in Hle'.
      split; [exact A1|]. split.
      { intros c Hc. rewrite Hb in Hc. injection Hc as <-.
        exists c'. split; [exact Hc'|]. lia. }
      rewrite Hh. cbn [snd]. destruct (callback m).
      * cbn [callbacks flat_map app].
        change (flat_map _ (@nil effect)) with (@nil HistoryBar). cbn [app].
        split; [constructor; [rewrite Ht; now apply Hal|exact A3]|].
        split.
        { intros c b0 Hc Hin. rewrite Hb in Hc. injection Hc as <-.
          apply elem_of_cons in Hin as [->|Hin]; [rewrite Ht; lia|].
          specialize (A4 _ b0 Hc1 Hin). cbn [Time opened] in A4. lia. }
        split.
        { intros b0 c'' Hin Hc''. apply elem_of_cons in Hin as [->|Hin].
          - rewrite Hc' in Hc''. injection Hc'' as <-. rewrite Ht. lia.
          - now apply A5. }
        constructor; [exact A6|].
        apply Forall_forall. intros b0 Hin.
        specialize (A4 _ b0 Hc1 Hin). cbn [Time opened] in A4. rewrite Ht. lia.
      * cbn [callbacks flat_map app].
        split; [exact A3|]. split.
        { intros c b0 Hc Hin. rewrite Hb in Hc. injection Hc as <-.
          specialize (A4 _ b0 Hc1 Hin). cbn [Time opened] in A4. lia. }
        split; [exact A5|exact A6].
Qed.

(** X3. With a positive period, starting with no current bar or with
    one whose start is a multiple of the period, the bars passed to the
    callback in a run all start at multiples of the period, each at least
    one period after the one emitted before it, and the bar still open at
    the end starts at least one period after the last of them: no two bars
    cover the same period. *)
Theorem emitted_bars_disjoint m es :
  0 < barPeriod m -> aligned m ->
  let bars := callbacks (run m es).2 in
  Forall (fun b => exists k, Time b = k * barPeriod m) bars /\
  StronglySorted (fun a b => Time a + barPeriod m <= Time b) bars /\
  (forall b c, b ∈ bars -> currentBar (run m es).1 = Some c ->
     Time b + barPeriod m <= Time c).
Proof.
  intros HP Hal. destruct (run_aligned es m HP Hal) as (_ & _ & A3 & _ & A5 & A6).
  auto.
Qed.

(** X3 at a run that closes two bars, the second after a gap of a minute
    without ticks. *)
Lemma emitted_bars_disjoint_witness :
  map Time (callbacks (run example_manager
    [GatewayQuote (ten_oclock + 5 * time.Second) "X" (quote 100 101);
     GatewayTrade (ten_oclock + 70 * time.Second) "X" (trade 101 5);
     GatewayQuote (ten_oclock + 190 * time.Second) "X" (quote 99 100)]).2)
  = [ten_oclock; ten_oclock + 60 * time.Second] /\
  StronglySorted (fun a b => Time a + barPeriod example_manager <= Time b)
    (callbacks (run example_manager
      [GatewayQuote (ten_oclock + 5 * time.Second) "X" (quote 100 101);
       GatewayTrade (ten_oclock + 70 * time.Second) "X" (trade 101 5);
       GatewayQuote (ten_oclock + 190 * time.Second) "X" (quote 99 100)]).2).
Proof.
  split; [vm_compute; reflexivity|].
  refine (proj1 (proj2 (emitted_bars_disjoint example_manager _ _ _))).
  - reflexivity.
  - intros b Hb. discriminate.
Defined.

(** X4. In every run, each bar passed to the callback after the first
    opens at the close of the bar passed just before it (both are the
    price of the tick that closed the earlier bar), and the first one
    opens where the bar that was current at the start opened. *)
Theorem emitted_bars_chained m es :
  chained (callbacks (run m es).2) /\
  (forall c b, currentBar m = Some c -> callbacks (run m es).2 !! 0%nat = Some b ->
     Open b = Open c).
Proof.
  revert m. induction es as [|e es IH]; intros m.
  - cbn. split; [intros i b b' H; destruct i; discriminate|intros c b _ H; discriminate].
  - destruct (run_cons m e es) as [_ ->]. rewrite callbacks_app.
    destruct (IH (handle m e).1) as [IHc IHh].
    destruct (handle_cases m e)
      as [(_ & Hm & Hout)
         |(now & p & sz & Ha &
           [[Hnone Hh]|[(b & Hb & Hlt & Hh)|(b & Hb & Hle & Hh)]])].
    + rewrite Hout. cbn [app]. rewrite Hm in *. auto.
    + rewrite Hh in *. cbn [snd callbacks flat_map app fst] in *.
      split; [exact IHc|]. intros c b Hc. congruence.
    + rewrite Hh in *. cbn [snd callbacks flat_map app fst] in *.
      split; [exact IHc|]. intros c b0 Hc Hhd.
      rewrite Hb in Hc. injection Hc as <-.
      rewrite (IHh _ b0 eq_refl Hhd). apply (after_tick_fields b p sz).
    + destruct (after_tick_fields b p sz) as (_ & Ho & Hc & _).
      destruct (callback m) eqn:Hcb.
      * rewrite Hh in *. cbn [snd callbacks flat_map app fst] in *.
        split.
        -- intros [|i] b1 b2 H1 H2; cbn in H1, H2.
           ++ injection H1 as <-. rewrite Hc.
              exact (IHh _ b2 eq_refl H2).
           ++ exact (IHc i b1 b2 H1 H2).
        -- intros c b0 Hcur Hhd. cbn in Hhd. injection Hhd as <-.
           rewrite Hb in Hcur. injection Hcur as <-. exact Ho.
      * assert (Hnil : callbacks (run (handle m e).1 es).2 = []).
        { apply callbacks_without_callback.
          destruct (handle_static m e) as (_ & -> & _). exact Hcb. }
        rewrite Hnil, Hh. cbn.
        split; [intros i b1 b2 H; destruct i; discriminate
               |intros c b0 _ H; discriminate].
Qed.


Lemma removelast_cons2 {A} (x y : A) l : removelast (x :: y :: l) = x :: removelast (y :: l).
Proof. reflexivity. Qed.

Lemma run_nonpositive_period es : forall ts m c,
  barPeriod m <= 0 -> callback m = true -> currentBar m = Some c ->
  Forall2 (fun e t => exists p sz, accepted m e t p sz) es ts ->
  Sorted Z.le (Time c :: ts) ->
  map Time (callbacks (run m es).2) = removelast (Time c :: ts).
Proof.
  induction es as [|e es IH]; intros ts m c HP Hcb Hc Hall Hsorted.
  - inversion Hall; subst. reflexivity.
  - inversion Hall as [|? t ? ts' (p & sz & Ha) Hrest]; subst.
    destruct (run_cons m e es) as [_ ->]. rewrite callbacks_app, map_app.
    apply Sorted_inv in Hsorted as [Hsorted Hhd]. apply HdRel_inv in Hhd.
    rewrite (handle_accepted _ _ _ _ _ Ha), Hc. unfold roll_over.
    cbn [barPeriod with_currentBar].
    destruct (stamped_fields m t sz) as (_ & HPs & Hcbs & Hids).
    destruct (after_tick_fields c p sz) as (Ht & _).
    rewrite HPs, Ht.
    destruct (Z.leb_spec (barPeriod m) (time.Sub t (Time c))) as [_|Hlt];
      [|pose proof (Sub_ge_nonpositive _ t (Time c) HP Hhd); lia].
    unfold closeCurrentBar. cbn. rewrite Hcbs, Hcb. cbn. rewrite Ht.
    f_equal. change (match ts' with [] => [] | _ :: _ => t :: removelast ts' end)
      with (removelast (t :: ts')).
    set (m1 := initializeNewBar _ _ _).
    assert (Hc1 : currentBar m1 = Some (opened (barPeriod m) t p))
      by (unfold m1; cbn; rewrite HPs; reflexivity).
    assert (HP1 : barPeriod m1 <= 0) by (unfold m1; cbn; rewrite HPs; exact HP).
    assert (Hcb1 : callback m1 = true) by (unfold m1; cbn; congruence).
    assert (Hrest1 : Forall2 (fun e t => exists p sz, accepted m1 e t p sz) es ts').
    { eapply Forall2_impl; [exact Hrest|]. intros e1 t1 (p1 & sz1 & Ha1).
      exists p1, sz1. eapply accepted_contractID; [|exact Ha1]. exact Hids. }
    rewrite (IH ts' m1 _ HP1 Hcb1 Hc1 Hrest1);
      cbn [Time opened]; rewrite (Truncate_nonpositive t _ HP);
      [reflexivity|exact Hsorted].
Qed.

(** X5. The constructor accepts any period.  With a period of zero or
    less, and clock readings that do not go backwards, every accepted tick
    after the first closes the bar opened by the tick before it: the bars
    passed to the callback start at the handling times of all ticks but
    the last. *)
Theorem nonpositive_period_closes_every_tick m es ts :
  barPeriod m <= 0 -> callback m = true -> currentBar m = None ->
  Forall2 (fun e t => exists p sz, accepted m e t p sz) es ts ->
  Sorted Z.le ts ->
  map Time (callbacks (run m es).2) = removelast ts.
Proof.
  intros HP Hcb Hnone Hall Hsorted.
  destruct Hall as [|e t es ts (p & sz & Ha) Hrest]; [reflexivity|].
  destruct (run_cons m e es) as [_ ->]. rewrite callbacks_app.
  destruct (handle_opens_fields m e t p sz Ha (or_introl Hnone))
    as (Hc1 & HP1 & Hcb1 & Hid1).
  rewrite (handle_accepted _ _ _ _ _ Ha), Hnone in *. cbn [fst snd] in *.
  cbn [callbacks flat_map app].
  set (m1 := initializeNewBar t p (stamped m t sz)) in *.
  assert (Hrest1 : Forall2 (fun e t => exists p sz, accepted m1 e t p sz) es ts).
  { eapply Forall2_impl; [exact Hrest|]. intros e1 t1 (p1 & sz1 & Ha1).
    exists p1, sz1. eapply accepted_contractID; [|exact Ha1]. exact Hid1. }
  rewrite (run_nonpositive_period es ts m1 _ ltac:(lia) ltac:(congruence) Hc1 Hrest1);
    cbn [Time opened]; rewrite (Truncate_nonpositive t _ HP); [reflexivity|exact Hsorted].
Qed.

(** X5 at an aggregator built with a period of 0 minutes and three ticks. *)
Lemma nonpositive_period_closes_every_tick_witness :
  map Time (callbacks (run (NewMarketDataManager "X" 0 true)
    [GatewayQuote ten_oclock "X" (quote 100 101);
     GatewayTrade (ten_oclock + 1) "X" (trade 101 5);
     GatewayQuote (ten_oclock + 1) "X" (quote 99 100)]).2)
  = [ten_oclock; ten_oclock + 1].
Proof.
  apply (nonpositive_period_closes_every_tick (NewMarketDataManager "X" 0 true)
           _ [ten_oclock; ten_oclock + 1; ten_oclock + 1]).
  - vm_compute. discriminate.
  - reflexivity.
  - reflexivity.
  - repeat constructor.
    + exists (Float64.mid 100 101), None. constructor; reflexivity.
    + exists 101%float, (Some 5%float). constructor; reflexivity.
    + exists (Float64.mid 99 100), None. constructor; reflexivity.
  - repeat constructor; vm_compute; discriminate.
Defined.

(* ===================================================================== *)
(** * The client: sequences of calls *)
(* ===================================================================== *)

Section ClientRuns.

Variable reply : hub.

Lemma teardown_disconnected k w :
  isConnected (self w) = false ->
  teardown reply k w =
    (tt, {| self := self w;
            trace := trace w ++ [unsubscribe_failure k not_connected] |}).
Proof.
  intros Hc. rewrite teardown_unfold, (unsubscribe_disconnected reply k w Hc).
  reflexivity.
Qed.

Lemma teardown_loop_disconnected order : forall w,
  isConnected (self w) = false ->
  (for_range order (teardown reply) w).2 =
    {| self := self w;
       trace := trace w ++ map (fun k => unsubscribe_failure k not_connected) order |}.
Proof.
  induction order as [|k order IH]; intros w Hc.
  - cbn. rewrite app_nil_r. now destruct w.
  - rewrite for_range_cons, (teardown_disconnected k w Hc). cbn [snd].
    rewrite IH by exact Hc. cbn. now rewrite <- app_assoc.
Qed.

Lemma teardown_accepted k w :
  isConnected (self w) = true ->
  unsubscribe_answers reply (trace w) k = (None, None, None) ->
  teardown reply k w =
    (tt, {| self := with_subscriptions (self w) (delete k (subscriptions (self w)));
            trace := trace w ++ unsubscribe_requests k |}).
Proof.
  intros Hc Hok. rewrite teardown_unfold, (unsubscribe_connected reply k w Hc), Hok.
  reflexivity.
Qed.

Lemma resubscribe_accepted k w :
  isConnected (self w) = true ->
  subscribe_answers reply (trace w) k = (None, None, None) ->
  resubscribe reply k w =
    (tt, {| self := with_subscriptions (self w) (<[k := true]> (subscriptions (self w)));
            trace := trace w ++ subscribe_requests k |}).
Proof.
  intros Hc Hok. rewrite resubscribe_unfold, (Subscribe_connected reply k w Hc), Hok.
  reflexivity.
Qed.

End ClientRuns.

(** X6. On a connected client whose hub accepts the six requests,
    Subscribe followed by Unsubscribe of the same instrument both return
    nil, send the three registrations and then the three unregistrations,
    and leave the subscription set without the instrument: as it was, when
    the instrument was not subscribed before. *)
Theorem subscribe_unsubscribe_round_trip reply id w :
  isConnected (self w) = true ->
  subscribe_answers reply (trace w) id = (None, None, None) ->
  unsubscribe_answers reply (trace w ++ subscribe_requests id) id = (None, None, None) ->
  let r1 := Subscribe reply id w in
  let r2 := Unsubscribe reply id r1.2 in
  r1.1 = None /\ r2.1 = None /\
  trace r2.2 = trace w ++ subscribe_requests id ++ unsubscribe_requests id /\
  subscriptions (self r2.2) = delete id (subscriptions (self w)) /\
  (subscriptions (self w) !! id = None ->
   subscriptions (self r2.2) = subscriptions (self w)).
Proof.
  intros Hc H1 H2. cbv zeta.
  rewrite (Subscribe_connected reply id w Hc), H1. cbn [fst snd].
  unfold Unsubscribe. rewrite unsubscribe_connected by exact Hc.
  cbn [trace self]. rewrite H2. cbn.
  split; [reflexivity|]. split; [reflexivity|].
  split; [now rewrite <- app_assoc|].
  assert (E : delete id (<[id:=true]> (subscriptions (self w))) =
              delete id (subscriptions (self w))) by apply delete_insert_eq.
  split; [exact E|]. intros Hnone. rewrite E. now apply delete_id.
Qed.

(** X6 at a client subscribed to "ES" that subscribes to "NQ" and
    unsubscribes again. *)
Lemma subscribe_unsubscribe_round_trip_witness :
  subscriptions (self (Unsubscribe always_ok "NQ"
                         (Subscribe always_ok "NQ" connected_world).2).2)
  = subscriptions (self connected_world).
Proof.
  refine (proj2 (proj2 (proj2 (proj2
    (subscribe_unsubscribe_round_trip always_ok "NQ" connected_world _ _ _)))) _);
    reflexivity.
Defined.

(** X7. Neither Subscribe nor Unsubscribe consults the subscription set.
    On a connected client whose hub accepts the requests, subscribing an
    instrument that is already subscribed sends its three registrations
    again, returns nil and leaves the set as it is; and unsubscribing an
    instrument that is not subscribed sends the three unregistrations,
    returns nil and leaves the set as it is. *)
Theorem no_check_of_subscription_set reply id w :
  isConnected (self w) = true ->
  (subscriptions (self w) !! id = Some true ->
   subscribe_answers reply (trace w) id = (None, None, None) ->
   Subscribe reply id w =
     (None, {| self := self w; trace := trace w ++ subscribe_requests id |})) /\
  (subscriptions (self w) !! id = None ->
   unsubscribe_answers reply (trace w) id = (None, None, None) ->
   Unsubscribe reply id w =
     (None, {| self := self w; trace := trace w ++ unsubscribe_requests id |})).
Proof.
  intros Hc. split; intros Hs Hok.
  - rewrite (Subscribe_connected reply id w Hc), Hok.
    rewrite (insert_id _ _ _ Hs). now destruct w as [[] ?].
  - unfold Unsubscribe. rewrite (unsubscribe_connected reply id w Hc), Hok.
    rewrite (delete_id _ _ Hs). now destruct w as [[] ?].
Qed.

(** X7 at "ES", which is subscribed, and "NQ", which is not. *)
Lemma no_check_of_subscription_set_witness :
  trace (Subscribe always_ok "ES" connected_world).2 = subscribe_requests "ES" /\
  trace (Unsubscribe always_ok "NQ" connected_world).2 = unsubscribe_requests "NQ".
Proof.
  destruct (no_check_of_subscription_set always_ok "ES" connected_world eq_refl)
    as [H1 _].
  destruct (no_check_of_subscription_set always_ok "NQ" connected_world eq_refl)
    as [_ H2].
  rewrite H1, H2 by reflexivity. split; reflexivity.
Defined.

Section ClientLoops.

Variable reply : hub.
Hypothesis accepts_all : forall tr m k, reply tr m k = None.

Lemma answers_accepts_all tr m1 m2 m3 k : answers reply tr m1 m2 m3 k = (None, None, None).
Proof. unfold answers. now rewrite !accepts_all. Qed.

Lemma teardown_loop_accepted order : forall w,
  isConnected (self w) = true ->
  (for_range order (teardown reply) w).2 =
    {| self := with_subscriptions (self w)
                 (fold_left (fun s k => delete k s) order (subscriptions (self w)));
       trace := trace w ++ concat (map unsubscribe_requests order) |}.
Proof.
  induction order as [|k order IH]; intros w Hc.
  - cbn. rewrite app_nil_r. now destruct w as [[] ?].
  - rewrite for_range_cons, (teardown_accepted reply k w Hc)
      by apply answers_accepts_all.
    cbn [snd]. rewrite IH by exact Hc. cbn. now rewrite <- app_assoc.
Qed.

Lemma resubscribe_loop_accepted order : forall w,
  isConnected (self w) = true ->
  (for_range order (resubscribe reply) w).2 =
    {| self := with_subscriptions (self w)
                 (fold_left (fun s k => <[k := true]> s) order (subscriptions (self w)));
       trace := trace w ++ concat (map subscribe_requests order) |}.
Proof.
  induction order as [|k order IH]; intros w Hc.
  - cbn. rewrite app_nil_r. now destruct w as [[] ?].
  - rewrite for_range_cons, (resubscribe_accepted reply k w Hc)
      by apply answers_accepts_all.
    cbn [snd]. rewrite IH by exact Hc. cbn. now rewrite <- app_assoc.
Qed.

End ClientLoops.

Lemma fold_insert_present (order : list string) : forall s : gmap string bool,
  (forall k, k ∈ order -> s !! k = Some true) ->
  fold_left (fun s k => <[k := true]> s) order s = s.
Proof.
  induction order as [|k order IH]; intros s H; [reflexivity|].
  cbn. rewrite insert_id by (apply H; left). apply IH.
  intros k' Hk'. apply H. now right.
Qed.

Lemma Stop_result reply order w : (Stop reply order w).1 = None.
Proof.
  unfold Stop, mbind, M_bind. destruct (for_range order _ w) as [[] w1]. reflexivity.
Qed.

(** X8. Stop always returns nil and ends by cancelling the context and
    stopping the transport.  On a client that is not connected it sends
    no request at all: it logs one "not connected" failure for every
    tracked instrument, in the order of iteration, and keeps them all.  On
    a connected client whose hub accepts every request it sends the three
    unregistrations of every tracked instrument, in that order, and
    nothing else. *)
Theorem stop_trace reply order w :
  (Stop reply order w).1 = None /\
  (isConnected (self w) = false ->
     trace (Stop reply order w).2 =
       trace w ++ map (fun k => unsubscribe_failure k not_connected) order
               ++ [Cancel; ClientStop] /\
     subscriptions (self (Stop reply order w).2) = subscriptions (self w)) /\
  (isConnected (self w) = true -> (forall tr m k, reply tr m k = None) ->
     trace (Stop reply order w).2 =
       trace w ++ concat (map unsubscribe_requests order) ++ [Cancel; ClientStop]).
Proof.
  split; [apply Stop_result|]. rewrite Stop_unfold. cbv zeta. split.
  - intros Hc. rewrite (teardown_loop_disconnected reply order w Hc). cbn.
    split; [|reflexivity]. now rewrite <- !app_assoc.
  - intros Hc Hok. rewrite (teardown_loop_accepted reply Hok order w Hc). cbn.
    now rewrite <- !app_assoc.
Qed.

(** X8 at Stop on a client that lost its connection. *)
Lemma stop_trace_witness :
  trace (Stop always_ok ["ES"%string] disconnected_world).2 =
    [unsubscribe_failure "ES" not_connected; Cancel; ClientStop] /\
  trace (Stop always_ok ["ES"%string] connected_world).2 =
    unsubscribe_requests "ES" ++ [Cancel; ClientStop].
Proof.
  destruct (stop_trace always_ok ["ES"%string] disconnected_world) as (_ & H1 & _).
  destruct (stop_trace always_ok ["ES"%string] connected_world) as (_ & _ & H2).
  split.
  - apply H1. reflexivity.
  - apply H2; reflexivity.
Defined.

(** X9. When the hub accepts every request, OnConnected sends, after its
    log line, the three registrations of every instrument of the
    subscription set, in the order of iteration, and nothing else; and if
    every entry of the set held true, the set is afterwards exactly what
    it was. *)
Theorem onconnected_trace reply connectionID order w :
  (forall tr m k, reply tr m k = None) ->
  ranges order (subscriptions (self w)) ->
  let w' := (OnConnected reply connectionID order w).2 in
  isConnected (self w') = true /\
  trace w' =
    trace w ++ Printf ("SignalR connected with ID: " +:+ connectionID)
            :: concat (map subscribe_requests order) /\
  (all_true (subscriptions (self w)) ->
   subscriptions (self w') = subscriptions (self w)).
Proof.
  intros Hok [_ Hkeys]. cbv zeta. rewrite OnConnected_unfold.
  set (w0 := {| self := with_isConnected (self w) true; trace := _ |}).
  rewrite (resubscribe_loop_accepted reply Hok order w0 eq_refl). cbn.
  split; [reflexivity|]. split; [now rewrite <- app_assoc|].
  intros Htrue. apply fold_insert_present. intros k Hk.
  apply Hkeys in Hk as [v Hv]. rewrite Hv. f_equal. exact (Htrue k v Hv).
Qed.

(** X9 at a reconnect of a client subscribed to "ES". *)
Lemma onconnected_trace_witness :
  trace (OnConnected always_ok "c2" ["ES"%string] disconnected_world).2 =
    Printf "SignalR connected with ID: c2" :: subscribe_requests "ES" /\
  subscriptions (self (OnConnected always_ok "c2" ["ES"%string] disconnected_world).2) =
    subscriptions (self disconnected_world).
Proof.
  destruct (onconnected_trace always_ok "c2" ["ES"%string] disconnected_world
              (fun _ _ _ => eq_refl) (ranges_singleton "ES"%string true))
    as (_ & H1 & H2).
  split; [exact H1|]. apply H2.
  intros k v Hv. cbn in Hv. apply lookup_singleton_Some in Hv. now destruct Hv.
Defined.

Lemma for_range_invariant (Q : world -> Prop) body :
  (forall k w, Q w -> Q (body k w).2) ->
  forall order w, Q w -> Q (for_range order body w).2.
Proof.
  intros Hbody. induction order as [|k order IH]; intros w Hw; [exact Hw|].
  rewrite for_range_cons. apply IH, Hbody, Hw.
Qed.

Lemma Subscribe_self reply id w :
  self (Subscribe reply id w).2 = self w \/
  self (Subscribe reply id w).2 =
    with_subscriptions (self w) (<[id := true]> (subscriptions (self w))).
Proof.
  destruct (isConnected (self w)) eqn:Hc.
  - rewrite (Subscribe_connected reply id w Hc).
    destruct (subscribe_answers reply (trace w) id) as [[[?|] [?|]] [?|]]; cbn; auto.
  - rewrite (Subscribe_disconnected reply id w Hc). auto.
Qed.

Lemma unsubscribe_self reply id w :
  self (unsubscribe reply id w).2 = self w \/
  self (unsubscribe reply id w).2 =
    with_subscriptions (self w) (delete id (subscriptions (self w))).
Proof.
  destruct (isConnected (self w)) eqn:Hc.
  - rewrite (unsubscribe_connected reply id w Hc).
    destruct (unsubscribe_answers reply (trace w) id) as [[[?|] [?|]] [?|]]; cbn; auto.
  - rewrite (unsubscribe_disconnected reply id w Hc). auto.
Qed.

Lemma resubscribe_self reply id w :
  self (resubscribe reply id w).2 = self (Subscribe reply id w).2.
Proof.
  rewrite resubscribe_unfold. destruct (Subscribe reply id w) as [[e|] w1]; reflexivity.
Qed.

Lemma teardown_self reply id w :
  self (teardown reply id w).2 = self (unsubscribe reply id w).2.
Proof.
  rewrite teardown_unfold. destruct (unsubscribe reply id w) as [[e|] w1]; reflexivity.
Qed.

Lemma all_true_insert s k : all_true s -> all_true (<[k := true]> s).
Proof.
  intros H k' v Hv. destruct (decide (k = k')) as [->|Hne].
  - rewrite lookup_insert_eq in Hv. congruence.
  - rewrite lookup_insert_ne in Hv by exact Hne. eauto.
Qed.

Lemma all_true_delete s k : all_true s -> all_true (delete k s).
Proof.
  intros H k' v Hv. destruct (decide (k = k')) as [->|Hne].
  - rewrite lookup_delete_eq in Hv. discriminate.
  - rewrite lookup_delete_ne in Hv by exact Hne. eauto.
Qed.

Lemma exec_all_true reply c w :
  all_true (subscriptions (self w)) ->
  all_true (subscriptions (self (exec reply c w))).
Proof.
  intros H.
  assert (HS : forall id w, all_true (subscriptions (self w)) ->
                 all_true (subscriptions (self (Subscribe reply id w).2))).
  { intros id w0 H0. destruct (Subscribe_self reply id w0) as [->| ->]; [exact H0|].
    now apply all_true_insert. }
  assert (HU : forall id w, all_true (subscriptions (self w)) ->
                 all_true (subscriptions (self (unsubscribe reply id w).2))).
  { intros id w0 H0. destruct (unsubscribe_self reply id w0) as [->| ->]; [exact H0|].
    now apply all_true_delete. }
  destruct c as [id|id|cid order|cid|order| |]; cbn [exec].
  - now apply HS.
  - now apply HU.
  - rewrite OnConnected_unfold.
    apply (for_range_invariant (fun w => all_true (subscriptions (self w)))).
    + intros k w0 H0. rewrite resubscribe_self. now apply HS.
    + exact H.
  - exact H.
  - rewrite Stop_unfold. cbn.
    apply (for_range_invariant (fun w => all_true (subscriptions (self w)))).
    + intros k w0 H0. rewrite teardown_self. now apply HU.
    + exact H.
  - exact H.
  - exact H.
Qed.

(** X10. The subscription map is used as a set: in every state the client
    reaches from its initial state, by any sequence of calls and whatever
    the hub answers, every entry of the map holds true. *)
Theorem subscriptions_all_true reply cs :
  all_true (subscriptions (self (exec_all reply cs NewSignalRClient))).
Proof.
  unfold exec_all.
  assert (H : all_true (subscriptions (self NewSignalRClient)))
    by (intros k v Hv; cbn in Hv; rewrite lookup_empty in Hv; discriminate).
  revert H. generalize NewSignalRClient. induction cs as [|c cs IH]; intros w H.
  - exact H.
  - cbn. apply IH. now apply exec_all_true.
Qed.

Lemma Forall_not_Send_failures order :
  Forall (fun a => is_Send a = false)
    (map (fun k => unsubscribe_failure k not_connected) order).
Proof. induction order; constructor; auto. Qed.

Lemma exec_disconnected reply c w :
  isConnected (self w) = false -> is_OnConnected c = false ->
  isConnected (self (exec reply c w)) = false /\
  subscriptions (self (exec reply c w)) = subscriptions (self w) /\
  exists t, trace (exec reply c w) = trace w ++ t /\
            Forall (fun a => is_Send a = false) t.
Proof.
  intros Hc Hno. destruct c as [id|id|cid order|cid|order| |]; cbn [exec];
    try discriminate.
  - rewrite (Subscribe_disconnected reply id w Hc). cbn.
    repeat split; auto. exists []. split; [now rewrite app_nil_r|constructor].
  - unfold Unsubscribe. rewrite (unsubscribe_disconnected reply id w Hc). cbn.
    repeat split; auto. exists []. split; [now rewrite app_nil_r|constructor].
  - cbn. repeat split; auto. eexists. split; [reflexivity|]. repeat constructor.
  - rewrite Stop_unfold. cbv zeta.
    rewrite (teardown_loop_disconnected reply order w Hc). cbn.
    repeat split; auto. eexists. split; [rewrite <- !app_assoc; reflexivity|].
    apply Forall_app. split; [apply Forall_not_Send_failures|repeat constructor].
  - cbn. repeat split; auto. eexists. split; [reflexivity|]. repeat constructor.
  - cbn. repeat split; auto. exists []. split; [now rewrite app_nil_r|constructor].
Qed.

(** X11. While the client is not connected, that is until OnConnected is
    called, no call sends a request to the hub and no call changes the
    subscription set: a Subscribe or Unsubscribe made meanwhile is lost,
    not queued, and Stop tears nothing down. *)
Theorem nothing_sent_while_disconnected reply cs w :
  isConnected (self w) = false ->
  Forall (fun c => is_OnConnected c = false) cs ->
  isConnected (self (exec_all reply cs w)) = false /\
  subscriptions (self (exec_all reply cs w)) = subscriptions (self w) /\
  exists t, trace (exec_all reply cs w) = trace w ++ t /\
            Forall (fun a => is_Send a = false) t.
Proof.
  intros Hc Hcs. revert w Hc. induction Hcs as [|c cs Hno _ IH]; intros w Hc.
  - cbn. repeat split; auto. exists []. split; [now rewrite app_nil_r|constructor].
  - cbn. destruct (exec_disconnected reply c w Hc Hno) as (Hc1 & Hs1 & t1 & Ht1 & Hf1).
    destruct (IH _ Hc1) as (Hc2 & Hs2 & t2 & Ht2 & Hf2).
    unfold exec_all in *. split; [exact Hc2|]. split; [congruence|].
    exists (t1 ++ t2). split; [rewrite Ht2, Ht1, app_assoc; reflexivity|].
    apply Forall_app. auto.
Qed.

(** X11 at a disconnect followed by a Subscribe, an Unsubscribe and Stop. *)
Lemma nothing_sent_while_disconnected_witness :
  subscriptions (self (exec_all always_ok
    [CallOnDisconnected "c1"; CallSubscribe "NQ"; CallUnsubscribe "ES";
     CallStop ["ES"%string]] disconnected_world)) =
  subscriptions (self disconnected_world).
Proof.
  refine (proj1 (proj2 (nothing_sent_while_disconnected always_ok _ _ _ _))).
  - reflexivity.
  - repeat constructor.
Defined.

(* ===================================================================== *)
(** * The REST client *)
(* ===================================================================== *)

Section RESTFacts.

Variable NewRequest_error : string -> string -> option string.
Variable Do : list event -> Request -> string + Response.
Variable invoke : func -> rest -> option error * rest.

(** One attempt: the request sent and what becomes of the answer. *)
Lemma doOnce_sent {R} `{Decoder R} method url body (out : option R) w :
  NewRequest_error method url = None ->
  exists req,
    built_by (this w) method url body req /\
    (doOnce NewRequest_error Do method url body out w).2 =
      {| this := this w; events := events w ++ [Sent req] |} /\
    (doOnce NewRequest_error Do method url body out w).1 =
      outcome (Do (events w) req) out.
Proof.
  intros Hnew. unfold doOnce. rewrite Hnew.
  set (req := {| Method := method; URL := url; Header := _; Body := body |}).
  exists req. split.
  - unfold built_by, req. cbn [Method URL Body Header].
    repeat (split; [reflexivity|]).
    destruct (decide (Token (this w) <> ""%string)) as [Hne|He];
      destruct (decide (Token (this w) = ""%string)) as [He'|Hne'];
      try congruence; try (exfalso; apply He; exact Hne');
      (repeat (split; [reflexivity|])); intros k Hk;
      assert (Hk' : forall h, h ∈ request_headers -> h <> k)
        by (intros h Hh ->; contradiction);
      rewrite ?lookup_insert_ne; try apply lookup_empty;
      apply Hk'; unfold request_headers; set_solver.
  - unfold outcome. destruct (Do (events w) req) as [e|resp]; [auto|].
    destruct (StatusCode resp =? 401); [auto|].
    destruct out as [r|]; [|auto].
    destruct (Decode (RespBody resp) r) as [e r']. auto.
Qed.

(** An attempt that finds the request malformed sends nothing. *)
Lemma doOnce_not_sent {R} `{Decoder R} method url body (out : option R) w e :
  NewRequest_error method url = Some e ->
  doOnce NewRequest_error Do method url body out w = (Some (Errorf e), out, w).
Proof. intros Hnew. unfold doOnce. now rewrite Hnew. Qed.

(** The error of an attempt is the sentinel only for the answer 401, and
    then [out] is left as it was. *)
Lemma outcome_unauthorized {R} `{Decoder R} a (out : option R) e :
  (outcome a out).1 = Some e ->
  Is_ErrUnauthorized e = unauthorized a /\
  (unauthorized a = true -> outcome a out = (Some ErrUnauthorized, out)).
Proof.
  unfold outcome, unauthorized. destruct a as [e'|resp]; cbn.
  - intros [= <-]. split; [reflexivity|discriminate].
  - destruct (StatusCode resp =? 401); cbn.
    + intros [= <-]. auto.
    + destruct out as [r|]; cbn; [|discriminate].
      destruct (Decode (RespBody resp) r).1; cbn; [|discriminate].
      intros [= <-]. split; [reflexivity|discriminate].
Qed.

End RESTFacts.

(** The request that [doOnce] builds is determined by the client and the
    arguments. *)
Lemma built_by_inj c method url body r r' :
  built_by c method url body r -> built_by c method url body r' -> r = r'.
Proof.
  intros (Hm & Hu & Hb & H1 & H2 & H3 & H4 & H5)
         (Hm' & Hu' & Hb' & H1' & H2' & H3' & H4' & H5').
  destruct r as [m1 u1 h1 b1], r' as [m2 u2 h2 b2]. cbn in *.
  subst. f_equal. apply map_eq. intros k.
  destruct (decide (k ∈ request_headers)) as [Hin|Hout].
  - unfold request_headers in Hin.
    repeat (apply elem_of_cons in Hin as [->|Hin]); try congruence.
    inversion Hin.
  - now rewrite H5, H5'.
Qed.

(** X13. [doRequest] makes one attempt, or one attempt, one call of the
    auth function and at most one more attempt, never a third.  A body
    that cannot be marshalled, or a request that cannot be built, is
    reported without anything being sent.  Otherwise the first request is
    sent with the client's current token.  Only when it is answered 401
    and an auth function is set is that function called: a transport
    error, any other status and a decoding error are returned as they are,
    after the one attempt.  If the auth function fails, its error is
    returned wrapped and nothing more is sent; if it succeeds, the request
    is sent once more, with the token the client has after the call, and
    the outcome of that second attempt is the result, a second 401
    included. *)
Theorem doRequest_attempts NewRequest_error Do invoke
    {B R} `{Marshaler B} `{Decoder R} method endpoint (body : B) (out : option R) w :
  let url := BaseURL (this w) +:+ endpoint in
  let res := doRequest NewRequest_error Do invoke method endpoint (Some body) out w in
  (forall e, Marshal body = inl e -> res = (Some (Errorf e), out, w)) /\
  (forall bytes e, Marshal body = inr bytes ->
     NewRequest_error method url = Some e -> res = (Some (Errorf e), out, w)) /\
  (forall bytes, Marshal body = inr bytes -> NewRequest_error method url = None ->
   exists r1, built_by (this w) method url (Some bytes) r1 /\
     let evs1 := events w ++ [Sent r1] in
     let first := Do (events w) r1 in
     (((unauthorized first = false \/ authFunc (this w) = None) /\
       res = (outcome first out, {| this := this w; events := evs1 |})) \/
      (unauthorized first = true /\
       exists f ae,
         authFunc (this w) = Some f /\
         invoke f (at_auth (this w) evs1 f) = (Some ae, res.2) /\
         res.1 = (Some (Wrapf "auth refresh failed: " ae), out)) \/
      (unauthorized first = true /\
       exists f w2 r2,
         authFunc (this w) = Some f /\
         invoke f (at_auth (this w) evs1 f) = (None, w2) /\
         built_by (this w2) method url (Some bytes) r2 /\
         res = (outcome (Do (events w2) r2) out,
                {| this := this w2; events := events w2 ++ [Sent r2] |})))).
Proof.
  cbv zeta. split; [|split].
  - intros e He. unfold doRequest. rewrite He. reflexivity.
  - intros bytes e Hm Hnew. unfold doRequest. rewrite Hm.
    rewrite (doOnce_not_sent NewRequest_error Do method _ (Some bytes) out w e Hnew).
    reflexivity.
  - intros bytes Hm Hnew. unfold doRequest. rewrite Hm.
    destruct (doOnce_sent NewRequest_error Do method _ (Some bytes) out w Hnew)
      as (r1 & Hb1 & Hw1 & Hres1).
    exists r1. split; [exact Hb1|].
    pose proof (outcome_unauthorized (Do (events w) r1) out) as Hun.
    destruct (doOnce NewRequest_error Do method _ (Some bytes) out w)
      as [[err out1] w1].
    cbn [fst snd] in Hw1, Hres1. subst w1. rewrite <- Hres1 in Hun |- *.
    cbn [fst snd] in Hun.
    destruct err as [e|]; [|left; split; [|reflexivity]].
    2:{ left. destruct (unauthorized (Do (events w) r1)) eqn:Hu; [|reflexivity].
        unfold outcome, unauthorized in *.
        destruct (Do (events w) r1) as [?|resp]; [discriminate|].
        rewrite Hu in Hres1. discriminate. }
    destruct (Hun e eq_refl) as [His Hout]. rewrite His. cbn [this events].
    destruct (unauthorized (Do (events w) r1)) eqn:Hu.
    + injection (Hout eq_refl) as -> ->.
      destruct (authFunc (this w)) as [f|] eqn:Hf.
      * fold (at_auth (this w) (events w ++ [Sent r1]) f).
        destruct (invoke f (at_auth (this w) (events w ++ [Sent r1]) f))
          as [[ae|] w2] eqn:Hinv.
        -- right. left. split; [reflexivity|]. exists f, ae. cbn. auto.
        -- right. right. split; [reflexivity|].
           destruct (doOnce_sent NewRequest_error Do method _ (Some bytes) out w2 Hnew)
             as (r2 & Hb2 & Hw2 & Hres2).
           exists f, w2, r2. rewrite <- Hres2, <- Hw2.
           repeat (split; [reflexivity || assumption|]).
           now destruct (doOnce _ _ _ _ _ _ _) as [[? ?] ?].
      * left. split; [now right|reflexivity].
    + left. split; [now left|reflexivity].
Qed.

(** X13 at a client without a token whose auth function installs one: the
    first request is answered 401, the auth function is called, and the
    second request is sent. *)
Lemma doRequest_attempts_witness :
  exists r1,
    built_by (this example_rest) "POST" "https://api.example/api/order/place"
      (Some "{}"%string) r1 /\
    unauthorized (example_server [] r1) = true /\
    length (events (@doRequest (fun _ _ => None) example_server example_auth
                      OrderRequest OrderResponse example_marshal example_order_decoder
                      "POST" "/api/order/place" (Some example_order)
                      (Some zero_OrderResponse) example_rest).2) = 3%nat.
Proof.
  destruct (proj2 (proj2 (@doRequest_attempts (fun _ _ => None) example_server
                     example_auth
                     OrderRequest OrderResponse example_marshal example_order_decoder
                     "POST" "/api/order/place" example_order
                     (Some zero_OrderResponse) example_rest))
              "{}"%string eq_refl eq_refl) as (r1 & Hb & _).
  exists r1. split; [exact Hb|]. split; [|reflexivity].
  destruct Hb as (_ & _ & _ & _ & _ & _ & Hauth & _).
  unfold unauthorized, example_server. rewrite Hauth. reflexivity.
Defined.

Section APIFacts.

Variable NewRequest_error : string -> string -> option string.
Variable Do : list event -> Request -> string + Response.
Variable invoke : func -> rest -> option error * rest.

Lemma doOnce_this {R} `{Decoder R} method url body (out : option R) w :
  this (doOnce NewRequest_error Do method url body out w).2 = this w.
Proof.
  destruct (NewRequest_error method url) as [e|] eqn:Hnew.
  - now rewrite (doOnce_not_sent NewRequest_error Do method url body out w e Hnew).
  - destruct (doOnce_sent NewRequest_error Do method url body out w Hnew)
      as (req & _ & -> & _). reflexivity.
Qed.

(** Without an auth function [doRequest] is a single attempt. *)
Lemma doRequest_no_auth {B R} `{Marshaler B} `{Decoder R} method endpoint
    (body : B) (out : option R) w :
  authFunc (this w) = None ->
  doRequest NewRequest_error Do invoke method endpoint (Some body) out w =
    match Marshal body with
    | inl e => (Some (Errorf e), out, w)
    | inr bytes =>
        doOnce NewRequest_error Do method (BaseURL (this w) +:+ endpoint)
          (Some bytes) out w
    end.
Proof.
  intros Hf. unfold doRequest. destruct (Marshal body) as [e|bytes]; [reflexivity|].
  pose proof (doOnce_this method (BaseURL (this w) +:+ endpoint) (Some bytes) out w)
    as Hthis.
  destruct (doOnce _ _ _ _ _ _ _) as [[err out1] w1]. cbn [snd] in Hthis.
  destruct err as [e|]; [|reflexivity].
  rewrite Hthis, Hf. destruct (Is_ErrUnauthorized e); reflexivity.
Qed.

Context `{Marshaler LoginRequest} `{Decoder LoginResponse}.
Context `{Marshaler OrderRequest} `{Decoder OrderResponse}.

(** The result of Login on a client without an auth function, by what
    happens to its one request. *)
Lemma Login_cases username apiKey w :
  authFunc (this w) = None ->
  let res := Login NewRequest_error Do invoke username apiKey w in
  let url := BaseURL (this w) +:+ "/api/Auth/loginKey" in
  match Marshal {| UserName := username; APIKey := apiKey |} with
  | inl e => res = (Some (Errorf e), w)
  | inr bytes =>
      match NewRequest_error "POST" url with
      | Some e => res = (Some (Errorf e), w)
      | None =>
          exists req,
            built_by (this w) "POST" url (Some bytes) req /\
            let w1 := {| this := this w; events := events w ++ [Sent req] |} in
            match Do (events w) req with
            | inl e => res = (Some (Errorf e), w1)
            | inr answer =>
                if StatusCode answer =? 401 then res = (Some ErrUnauthorized, w1)
                else
                  let decoded := Decode (RespBody answer) zero_LoginResponse in
                  match decoded.1 with
                  | Some e => res = (Some (Errorf e), w1)
                  | None =>
                      if login_Success decoded.2
                      then res = (None, {| this := with_Token (this w) (login_Token decoded.2);
                                           events := events w1 |})
                      else res = (Some (Errorf ("login failed: " +:+
                                                login_ErrorMessage decoded.2)), w1)
                  end
            end
      end
  end.
Proof.
  intros Hf. cbv zeta. unfold Login.
  rewrite (doRequest_no_auth "POST" "/api/Auth/loginKey"
             {| UserName := username; APIKey := apiKey |}
             (Some zero_LoginResponse) w Hf).
  destruct (Marshal _) as [e|bytes]; [reflexivity|].
  destruct (NewRequest_error "POST" _) as [e|] eqn:Hnew.
  - rewrite (doOnce_not_sent NewRequest_error Do "POST" _ (Some bytes)
               (Some zero_LoginResponse) w e Hnew). reflexivity.
  - destruct (doOnce_sent NewRequest_error Do "POST" _ (Some bytes)
                (Some zero_LoginResponse) w Hnew) as (req & Hb & Hw1 & Hres).
    exists req. split; [exact Hb|].
    destruct (doOnce _ _ _ _ _ _ _) as [[err out1] w1]. cbn [fst snd] in Hw1, Hres.
    subst w1. unfold outcome in Hres.
    destruct (Do (events w) req) as [e|answer]; [injection Hres as -> ->; reflexivity|].
    destruct (StatusCode answer =? 401); [injection Hres as -> ->; reflexivity|].
    injection Hres as -> ->.
    destruct (Decode (RespBody answer) zero_LoginResponse).1; cbn; [reflexivity|].
    destruct (login_Success _); reflexivity.
Qed.

(** X14. On a client without an auth function, Login sends at most one
    request.  When it returns an error, whether from the transport, from
    decoding or because the response says success = false, the client is
    left as it was: the token it had is kept.  When it returns nil, one
    request was sent, built from the marshalled credentials; the server
    answered it with a status other than 401 and a body that decodes
    without error to a response with success = true; and the token of that
    very response is stored, so that every later request carries
    "Bearer " followed by that token, or no authorization at all when the
    token returned is empty.  Conversely, whenever the request is answered
    with a status other than 401 and a body that decodes, the decoded
    success flag alone decides: true gives nil and stores the token, false
    gives "login failed: " followed by the message and keeps the old
    token. *)
Theorem login_token username apiKey w :
  authFunc (this w) = None ->
  let res := Login NewRequest_error Do invoke username apiKey w in
  let url := BaseURL (this w) +:+ "/api/Auth/loginKey" in
  let credentials := {| UserName := username; APIKey := apiKey |} in
  (events res.2 = events w \/ exists req, events res.2 = events w ++ [Sent req]) /\
  (res.1 <> None -> this res.2 = this w) /\
  (res.1 = None ->
   exists bytes req answer,
     Marshal credentials = inr bytes /\
     built_by (this w) "POST" url (Some bytes) req /\
     events res.2 = events w ++ [Sent req] /\
     Do (events w) req = inr answer /\ StatusCode answer <> 401 /\
     let decoded := Decode (RespBody answer) zero_LoginResponse in
     decoded.1 = None /\ login_Success decoded.2 = true /\
     this res.2 = with_Token (this w) (login_Token decoded.2) /\
     forall method url' body (out : option LoginResponse),
       NewRequest_error method url' = None ->
       exists req',
         events (doOnce NewRequest_error Do method url' body out res.2).2 =
           events res.2 ++ [Sent req'] /\
         Header req' !! "Authorization"%string =
           (if decide (login_Token decoded.2 = ""%string) then None
            else Some ("Bearer " +:+ login_Token decoded.2))) /\
  (forall bytes req answer,
     Marshal credentials = inr bytes ->
     NewRequest_error "POST" url = None ->
     built_by (this w) "POST" url (Some bytes) req ->
     Do (events w) req = inr answer -> StatusCode answer <> 401 ->
     let decoded := Decode (RespBody answer) zero_LoginResponse in
     decoded.1 = None ->
     res.1 = (if login_Success decoded.2 then None
              else Some (Errorf ("login failed: " +:+ login_ErrorMessage decoded.2))) /\
     Token (this res.2) =
       (if login_Success decoded.2 then login_Token decoded.2 else Token (this w))).
Proof.
  intros Hf. cbv zeta.
  pose proof (Login_cases username apiKey w Hf) as HC. cbv zeta in HC.
  destruct (Marshal {| UserName := username; APIKey := apiKey |}) as [e|bytes] eqn:Hm.
  { rewrite HC. cbn. repeat split; auto; discriminate. }
  destruct (NewRequest_error "POST" (BaseURL (this w) +:+ "/api/Auth/loginKey"))
    as [e|] eqn:Hnew.
  { rewrite HC. cbn. repeat split; auto; discriminate. }
  destruct HC as (req & Hb & HC). cbv zeta in HC.
  assert (Hreq : forall req', built_by (this w) "POST"
                   (BaseURL (this w) +:+ "/api/Auth/loginKey") (Some bytes) req' ->
                 req' = req).
  { intros req' Hb'. exact (built_by_inj _ _ _ _ _ _ Hb' Hb). }
  destruct (Do (events w) req) as [e|answer] eqn:Hdo.
  { rewrite HC. cbn. split; [eauto|]. split; [auto|]. split; [discriminate|].
    intros bytes' req' answer' [= <-] _ Hb' Hdo'.
    rewrite (Hreq _ Hb'), Hdo in Hdo'. discriminate. }
  destruct (Z.eqb_spec (StatusCode answer) 401) as [H401|H401].
  { rewrite HC. cbn. split; [eauto|]. split; [auto|]. split; [discriminate|].
    intros bytes' req' answer' [= <-] _ Hb' Hdo'.
    rewrite (Hreq _ Hb'), Hdo in Hdo'. injection Hdo' as <-. contradiction. }
  destruct (Decode (RespBody answer) zero_LoginResponse).1 as [e|] eqn:Hdec.
  { rewrite HC. cbn. split; [eauto|]. split; [auto|]. split; [discriminate|].
    intros bytes' req' answer' [= <-] _ Hb' Hdo'.
    rewrite (Hreq _ Hb'), Hdo in Hdo'. injection Hdo' as <-. congruence. }
  destruct (login_Success (Decode (RespBody answer) zero_LoginResponse).2) eqn:Hs.
  - rewrite HC. cbn [fst snd this events]. split; [eauto|].
    split; [intros Hne; now contradiction Hne|]. split.
    + intros _. exists bytes, req, answer.
      repeat (split; [reflexivity || assumption|]).
      intros method url' body out Hnew'.
      destruct (doOnce_sent NewRequest_error Do method url' body out
                  {| this := with_Token (this w)
                               (login_Token (Decode (RespBody answer) zero_LoginResponse).2);
                     events := events w ++ [Sent req] |} Hnew')
        as (req' & Hb' & -> & _).
      exists req'. split; [reflexivity|]. apply Hb'.
    + intros bytes' req' answer' [= <-] _ Hb' Hdo' _ _.
      rewrite (Hreq _ Hb'), Hdo in Hdo'. injection Hdo' as <-.
      rewrite Hs. auto.
  - rewrite HC. cbn. split; [eauto|]. split; [auto|]. split; [discriminate|].
    intros bytes' req' answer' [= <-] _ Hb' Hdo' _ _.
    rewrite (Hreq _ Hb'), Hdo in Hdo'. injection Hdo' as <-.
    rewrite Hs. auto.
Qed.

(** X15. PlaceOrder returns a nil response only together with an error,
    and returns the decoded response whenever there is one, also when it
    reports a failure: then the error is "order failed: " followed by the
    message of the response.  The status of the HTTP answer is looked at
    only for 401: when the server answers with any other status and a body
    that decodes, the decoded response alone decides the outcome. *)
Theorem place_order_result order w :
  let res := PlaceOrder NewRequest_error Do invoke order w in
  (res.1.1 = None -> res.1.2 <> None) /\
  (forall resp, res.1.1 = Some resp ->
     res.1.2 = if order_Success resp then None
               else Some (Errorf ("order failed: " +:+ order_ErrorMessage resp))) /\
  (forall bytes answer,
     Marshal order = inr bytes ->
     NewRequest_error "POST" (BaseURL (this w) +:+ "/api/order/place") = None ->
     (forall req, Do (events w) req = inr answer) ->
     StatusCode answer <> 401 ->
     (Decode (RespBody answer) zero_OrderResponse).1 = None ->
     res.1.1 = Some (Decode (RespBody answer) zero_OrderResponse).2).
Proof.
  cbv zeta. unfold PlaceOrder. split; [|split].
  - destruct (doRequest _ _ _ _ _ _ _ _) as [[[e|] out] w1]; cbn; [discriminate|].
    destruct (order_Success _); discriminate.
  - intros resp. destruct (doRequest _ _ _ _ _ _ _ _) as [[[e|] out] w1]; cbn;
      [discriminate|].
    destruct (order_Success (default zero_OrderResponse out)) eqn:Hs; cbn;
      intros [= <-]; now rewrite Hs.
  - intros bytes answer Hm Hnew Hdo Hst Hdec. unfold doRequest. rewrite Hm.
    destruct (doOnce_sent NewRequest_error Do "POST" _ (Some bytes)
                (Some zero_OrderResponse) w Hnew) as (req & _ & _ & Hres).
    rewrite Hdo in Hres. unfold outcome in Hres.
    destruct (Z.eqb_spec (StatusCode answer) 401) as [|_]; [contradiction|].
    rewrite Hdec in Hres.
    destruct (doOnce _ _ _ _ _ _ _) as [[err out1] w1]. cbn [fst] in Hres.
    injection Hres as -> ->. cbn.
    destruct (order_Success _); reflexivity.
Qed.

End APIFacts.

(** X14 at a login that the server answers with status 500 and a body
    that decodes to success with token "T1": the token of that answer is
    the one stored. *)
Lemma login_token_witness :
  exists answer,
    StatusCode answer = 500 /\
    Token (this (@Login (fun _ _ => None) (failing_server "") example_auth
                   example_marshal example_login_decoder "user" "key" plain_rest).2) =
      login_Token (example_login_decoder (RespBody answer) zero_LoginResponse).2 /\
    login_Token (example_login_decoder (RespBody answer) zero_LoginResponse).2 =
      "T1"%string.
Proof.
  destruct (@login_token (fun _ _ => None) (failing_server "") example_auth
              example_marshal example_login_decoder "user" "key" plain_rest eq_refl)
    as (_ & _ & Hok & _).
  destruct (Hok eq_refl) as (bytes & req & answer & _ & _ & _ & Hdo & _ & Hrest).
  cbv zeta in Hrest. destruct Hrest as (_ & _ & Ht & _).
  injection Hdo as <-. exists {| StatusCode := 500; RespBody := "" |}.
  split; [reflexivity|]. split; [|reflexivity].
  rewrite Ht. reflexivity.
Defined.

(** X15 at an order that the server rejects with status 500: the response
    is returned with the error. *)
Lemma place_order_result_witness :
  (@PlaceOrder (fun _ _ => None) (failing_server "rejected") example_auth
     example_marshal example_order_decoder example_order plain_rest).1 =
  (Some {| OrderID := 7; order_Success := false; order_ErrorCode := 0;
           order_ErrorMessage := "rejected" |},
   Some (Errorf "order failed: rejected")).
Proof.
  destruct (@place_order_result (fun _ _ => None) (failing_server "rejected")
              example_auth example_marshal example_order_decoder example_order
              plain_rest) as (_ & Herr & Hresp).
  specialize (Hresp "{}"%string {| StatusCode := 500; RespBody := "rejected" |}
                eq_refl eq_refl (fun _ => eq_refl) ltac:(discriminate) eq_refl).
  specialize (Herr _ Hresp).
  destruct (PlaceOrder _ _ _ _ _) as [[p err] w']. cbn [fst snd] in *.
  rewrite Hresp, Herr. reflexivity.
Defined.

Lemma exec_reconnectCount reply c w :
  reconnectCount (self (exec reply c w)) =
    if is_OnDisconnected c then Int64.wrap64 (reconnectCount (self w) + 1)
    else reconnectCount (self w).
Proof.
  assert (HS : forall id w, reconnectCount (self (Subscribe reply id w).2) =
                            reconnectCount (self w)).
  { intros id w0. destruct (Subscribe_self reply id w0) as [->| ->]; reflexivity. }
  assert (HU : forall id w, reconnectCount (self (unsubscribe reply id w).2) =
                            reconnectCount (self w)).
  { intros id w0. destruct (unsubscribe_self reply id w0) as [->| ->]; reflexivity. }
  destruct c as [id|id|cid order|cid|order| |]; cbn [exec is_OnDisconnected].
  - apply HS.
  - apply HU.
  - rewrite OnConnected_unfold.
    apply (for_range_invariant
             (fun w' => reconnectCount (self w') = reconnectCount (self w))).
    + intros k w0 H0. now rewrite resubscribe_self, HS.
    + reflexivity.
  - reflexivity.
  - rewrite Stop_unfold. cbn.
    apply (for_range_invariant
             (fun w' => reconnectCount (self w') = reconnectCount (self w))).
    + intros k w0 H0. now rewrite teardown_self, HU.
    + reflexivity.
  - reflexivity.
  - reflexivity.
Qed.

(** X12. [reconnectCount] counts the disconnections: from the initial
    state, after any sequence of calls, it is the number of OnDisconnected
    calls made so far (as a 64-bit int); OnConnected and Stop never reset
    it. *)
Theorem reconnectCount_counts_disconnects reply cs :
  reconnectCount (self (exec_all reply cs NewSignalRClient)) =
    Int64.wrap64 (disconnects cs).
Proof.
  assert (G : forall cs w,
             reconnectCount (self (exec_all reply cs w)) =
             if decide (disconnects cs = 0) then reconnectCount (self w)
             else Int64.wrap64 (reconnectCount (self w) + disconnects cs)).
  { clear cs. induction cs as [|c cs IH]; intros w; [reflexivity|].
    change (exec_all reply (c :: cs) w) with (exec_all reply cs (exec reply c w)).
    rewrite IH, exec_reconnectCount. unfold disconnects. cbn [List.filter].
    destruct (is_OnDisconnected c); cbn [length]; [|reflexivity].
    set (n := length (List.filter is_OnDisconnected cs)).
    destruct (decide (Z.of_nat (S n) = 0)) as [|_]; [lia|].
    destruct (decide (Z.of_nat n = 0)) as [E|_].
    - f_equal. lia.
    - rewrite wrap64_add_l. f_equal. lia. }
  rewrite G. cbn [reconnectCount self NewSignalRClient].
  destruct (decide _) as [->|_]; reflexivity.
Qed.
